(** * bass-fretboard-trainer: the quiz session and the fretboard hit test

    A shallow embedding of the logic of [App] and [Fretboard] (App.tsx):
    the open-string table, [midiToNameOctave], the set of targetable
    notes, [shuffle], [nextTarget], [onHit], and [pickHit].

    Conventions of the embedding.
    - MIDI numbers are integers ([Z]); string and fret indices are [nat].
    - Pixel coordinates and [performance.now()] timestamps are JavaScript
      numbers; they are modelled as exact rationals ([Q]).  Every constant
      of [pickHit] (10, 18, 24, 0.25, 60, 4) is a dyadic rational.  The
      fret boundaries [fretXs] are computed as the source computes them,
      every operation rounded to binary64 ([roundDouble]).
    - [undefined] read from an array out of range is [None]; arithmetic on
      it gives NaN, and every comparison with NaN is false.
    - [Math.random] is a sequence [random : nat -> Q]; the session keeps
      the number of draws made so far.
    - React state ([useState]) and refs ([useRef]) are fields of one
      record; a state updater runs once, atomically.  Callbacks handed to
      [requestAnimationFrame] are counted in [rafQueue] and run by the
      [AnimationFrame] event. *)

From Stdlib Require Import ZArith QArith Qabs Qminmax Qround.
From Stdlib Require Import Ascii String DecimalString Lia Lqa.
From Stdlib Require Import Sorted DecimalPos DecimalZ.
From stdpp Require Import base list.
Import ListNotations.

Local Open Scope Z_scope.

(** ** Numbers *)

(** [a < b] on JavaScript numbers. *)
Definition Qlt_bool (a b : Q) : bool := negb (Qle_bool b a).

(** ** Pitch geometry *)

Inductive StringCount := SC4 | SC5 | SC6.

Definition stringCountNum (sc : StringCount) : nat :=
  match sc with SC4 => 4 | SC5 => 5 | SC6 => 6 end.

Record Target := mkTarget {
  stringIndex : nat;  (* 0 = bottom (lowest pitch) *)
  fret : nat          (* 0..N (0 = open) *)
}.

Definition OPEN_MIDIS (sc : StringCount) : list Z :=
  match sc with
  | SC4 => [28; 33; 38; 43]
  | SC5 => [23; 28; 33; 38; 43]
  | SC6 => [23; 28; 33; 38; 43; 48]
  end.

Definition NOTE_NAMES_SHARP : list string :=
  ["C"; "C#"; "D"; "D#"; "E"; "F"; "F#"; "G"; "G#"; "A"; "A#"; "B"]%string.

(** A natural note letter, alone or followed by a sharp sign. *)
Definition sharpName (s : string) : bool :=
  match s with
  | String c EmptyString => existsb (Ascii.eqb c) (list_ascii_of_string "CDEFGAB")
  | String c (String "#"%char EmptyString) =>
    existsb (Ascii.eqb c) (list_ascii_of_string "CDEFGAB")
  | _ => false
  end.

(** [NOTE_NAMES_SHARP[k]]: [undefined] outside [0..11]. *)
Definition noteName (k : Z) : option string :=
  if k <? 0 then None else NOTE_NAMES_SHARP !! Z.to_nat k.

(** A template literal prints [undefined] as the word. *)
Definition showName (o : option string) : string :=
  match o with Some s => s | None => "undefined"%string end.

(** A template literal prints an integer in decimal, with a sign. *)
Definition showInt (z : Z) : string := NilZero.string_of_int (Z.to_int z).

(** [%] of JavaScript truncates towards zero: [Z.rem]. *)
Definition midiToNameOctave (midi : Z) : string :=
  let name := noteName (Z.rem midi 12) in
  let octave := Qfloor (inject_Z midi / 12) - 1 in
  (showName name ++ showInt octave)%string.

(** ** The targetable notes *)

(** [Set.prototype.add]: a set keeps insertion order, without repeats. *)
Definition set_add (s : list Z) (x : Z) : list Z :=
  if existsb (Z.eqb x) s then s else s ++ [x].

(** The inner loop [for (f = 0; f <= frets; f += 1) s.add(open + f)]. *)
Definition addString (frets : nat) (s : list Z) (open : Z) : list Z :=
  fold_left (fun s f => set_add s (open + Z.of_nat f)) (seq 0 (S frets)) s.

(** [possibleMidis]: the outer loop reads [OPEN_MIDIS[stringCount][i]] for
    [i < stringCount], which are all the entries of the table row. *)
Definition possibleMidis (sc : StringCount) (frets : nat) : list Z :=
  fold_left (addString frets) (take (stringCountNum sc) (OPEN_MIDIS sc)) [].

(** ** The deck *)

(** [tmp = a[i]; a[i] = a[j]; a[j] = tmp] for [i], [j] inside the array
    (which is where [shuffle] keeps them, [random] being in [0,1)). *)
Definition swap (a : list Z) (i j : nat) : list Z :=
  match a !! i, a !! j with
  | Some ai, Some aj => <[j := ai]> (<[i := aj]> a)
  | _, _ => a
  end.

(** [Math.floor(Math.random() * (i + 1))], the draw being [r]. *)
Definition randomIndex (r : Q) (i : nat) : nat :=
  Z.to_nat (Qfloor (r * inject_Z (Z.of_nat i + 1))).

(** The loop of [shuffle], [i] going down to 1; [k] counts the draws. *)
Fixpoint shuffleFrom (random : nat -> Q) (i : nat) (a : list Z) (k : nat)
  : list Z * nat :=
  match i with
  | O => (a, k)
  | S i' => shuffleFrom random i' (swap a i (randomIndex (random k) i)) (S k)
  end.

Definition shuffle (random : nat -> Q) (arr : list Z) (k : nat) : list Z * nat :=
  shuffleFrom random (length arr - 1) arr k.

(** ** The session *)

Record Config := mkConfig {
  stringCount : StringCount;
  frets : nat;
  soundOn : bool
}.

Record Session := mkSession {
  currentMidi : option Z;      (* useState: null is None *)
  deck : list Z;               (* useState *)
  lastHitTs : Q;               (* lastHitTsRef.current *)
  pendingNext : bool;          (* pendingNextRef.current *)
  rafQueue : nat;              (* callbacks given to requestAnimationFrame *)
  shaking : bool;              (* useShake *)
  showDamage : bool;           (* useState *)
  played : list (option Z);    (* audio.playMidi calls, NaN is None *)
  draws : nat                  (* calls of Math.random so far *)
}.

Definition withDeck (s : Session) (cur : option Z) (d : list Z) (k : nat) : Session :=
  mkSession cur d (lastHitTs s) (pendingNext s) (rafQueue s)
            (shaking s) (showDamage s) (played s) k.

(** [nextTarget]: the updater of [setDeck], with its [setCurrentMidi]. *)
Definition nextTarget (random : nat -> Q) (c : Config) (s : Session) : Session :=
  let '(d, k) :=
    match deck s with
    | [] => shuffle random (possibleMidis (stringCount c) (frets c)) (draws s)
    | _ => (deck s, draws s)
    end in
  withDeck s (head d) (tail d) k.

(** The effect run when [possibleMidis] changes. *)
Definition configure (random : nat -> Q) (c : Config) (s : Session) : Session :=
  let '(d, k) := shuffle random (possibleMidis (stringCount c) (frets c)) (draws s) in
  withDeck s None d k.

Inductive Outcome := Correct | Incorrect.

(** [OPEN_MIDIS[stringCount][hit.stringIndex] + hit.fret]; NaN is [None]. *)
Definition hitMidi (sc : StringCount) (hit : Target) : option Z :=
  match OPEN_MIDIS sc !! stringIndex hit with
  | Some open => Some (open + Z.of_nat (fret hit))
  | None => None
  end.

(** [midi === currentMidi], [currentMidi] being a number here. *)
Definition sameMidi (midi : option Z) (cur : Z) : bool :=
  match midi with Some m => m =? cur | None => false end.

(** [onHit].  The result pairs the new session with the branch taken:
    [Some Correct] for [ok], [Some Incorrect] for the wrong-feedback
    branch, [None] for the two early returns. *)
Definition onHit (c : Config) (nowTs : Q) (hit : Target) (s : Session)
  : Session * option Outcome :=
  if Qlt_bool (nowTs - lastHitTs s) 60 then (s, None)
  else
    let s1 := mkSession (currentMidi s) (deck s) nowTs (pendingNext s) (rafQueue s)
                        (shaking s) (showDamage s) (played s) (draws s) in
    match currentMidi s with
    | None => (s1, None)
    | Some cur =>
      let midi := hitMidi (stringCount c) hit in
      let log := if soundOn c then played s ++ [midi] else played s in
      if sameMidi midi cur then
        if pendingNext s then
          (mkSession (currentMidi s) (deck s) nowTs true (rafQueue s)
                     (shaking s) (showDamage s) log (draws s), Some Correct)
        else
          (mkSession (currentMidi s) (deck s) nowTs true (S (rafQueue s))
                     (shaking s) (showDamage s) log (draws s), Some Correct)
      else
        (mkSession (currentMidi s) (deck s) nowTs (pendingNext s) (rafQueue s)
                   true true log (draws s), Some Incorrect)
    end.

(** The callback given to [requestAnimationFrame]:
    [nextTarget(); pendingNextRef.current = false]. *)
Definition rafCallback (random : nat -> Q) (c : Config) (s : Session) : Session :=
  let s' := nextTarget random c s in
  mkSession (currentMidi s') (deck s') (lastHitTs s') false (rafQueue s')
            (shaking s') (showDamage s') (played s') (draws s').

(** An animation frame runs every queued callback, in order. *)
Definition animationFrame (random : nat -> Q) (c : Config) (s : Session) : Session :=
  let s' := Nat.iter (rafQueue s) (rafCallback random c) s in
  mkSession (currentMidi s') (deck s') (lastHitTs s') (pendingNext s') 0
            (shaking s') (showDamage s') (played s') (draws s').

Inductive Event :=
| Hit (nowTs : Q) (hit : Target)
| AnimationFrame.

(** Ghost counters of a run: [Correct] outcomes so far, and advances
    performed by animation-frame callbacks so far. *)
Record Tally := mkTally { corrects : nat; advances : nat }.

Definition step (random : nat -> Q) (c : Config) (st : Session * Tally) (e : Event)
  : Session * Tally :=
  let '(s, t) := st in
  match e with
  | Hit nowTs hit =>
    let '(s', o) := onHit c nowTs hit s in
    (s', match o with
         | Some Correct => mkTally (S (corrects t)) (advances t)
         | _ => t
         end)
  | AnimationFrame =>
    (animationFrame random c s, mkTally (corrects t) (advances t + rafQueue s))
  end.

Definition run (random : nat -> Q) (c : Config) (es : list Event) (st : Session * Tally)
  : Session * Tally :=
  fold_left (step random c) es st.

(** [n] consecutive calls of [nextTarget], with the targets they set. *)
Fixpoint advanceN (random : nat -> Q) (c : Config) (n : nat) (s : Session)
  : list (option Z) * Session :=
  match n with
  | O => ([], s)
  | S n' =>
    let s' := nextTarget random c s in
    let '(shown, s'') := advanceN random c n' s' in
    (currentMidi s' :: shown, s'')
  end.

(** ** The fretboard: geometry and hit test *)

Local Open Scope Q_scope.

Record DOMPoint := mkPoint { px : Q; py : Q }.

Definition width : Q := 1600.
Definition heightPerString : Q := 44.
Definition paddingY : Q := 24.
Definition nutWidth : Q := 10.
Definition scaleLength : Q := 1000.
Definition openPad : Q := 18.
Definition FRET_WIDTH : Q := 5.
Definition marginRight : Q := 30.

Definition natQ (n : nat) : Q := inject_Z (Z.of_nat n).

Definition boardHeight (stringCount : nat) : Q :=
  natQ stringCount * heightPerString + paddingY * 2.

Definition bindingThickness (binding : bool) : Q := if binding then 10 else 0.

Definition boardTopY (binding : bool) : Q := bindingThickness binding.

(** [stringCount - 1 || 1]. *)
Definition orOne (n : nat) : nat := match n with O => 1%nat | _ => n end.

(** [stringYs]: index 0 is the bottom line, the last index the top line. *)
Definition stringYs (stringCount : nat) (binding : bool) : list Q :=
  let usable := boardHeight stringCount - paddingY * 2 in
  map (fun i =>
         boardTopY binding + paddingY
         + (usable * natQ (stringCount - 1 - i)) / natQ (orOne (stringCount - 1)))
      (seq 0 stringCount).

(** The binary64 number nearest to [x], ties to even: the rounding of
    every arithmetic operation of JavaScript.  The exponent is not
    limited here; the numbers of a board stay far inside its range. *)
Definition roundDouble (x : Q) : Q :=
  let r := Qred x in
  if (Qnum r =? 0)%Z then 0
  else
    let a := Qabs r in
    let e0 := (Z.log2 (Z.abs (Qnum r)) - Z.log2 (Zpos (Qden r)))%Z in
    let e := if Qlt_bool a (Qpower 2 e0) then (e0 - 1)%Z else e0 in
    let m := a * Qpower 2 (52 - e) in
    let f := Qfloor m in
    let twice := (m - inject_Z f) * 2 in
    let n := if Qlt_bool twice 1 then f
             else if Qlt_bool 1 twice then (f + 1)%Z
             else if Z.even f then f else (f + 1)%Z in
    let s := if (Qnum r <? 0)%Z then (- n)%Z else n in
    Qred (inject_Z s * Qpower 2 (e - 52)).

(** [a + b], [a - b], [a * b] and [a / b] on doubles ([b] not zero). *)
Definition jsAdd (a b : Q) : Q := roundDouble (a + b).
Definition jsSub (a b : Q) : Q := roundDouble (a - b).
Definition jsMul (a b : Q) : Q := roundDouble (a * b).
Definition jsDiv (a b : Q) : Q := roundDouble (a / b).

(** [fretXs], computed in doubles, with [pow2 n] standing for the double
    [Math.pow(2, n / 12)].  The result is [None] when a division by zero
    occurs, where the array of the source holds NaN or Infinity: with no
    fret [full] is 0 and the array is [[NaN]]. *)
Definition fretXs (pow2 : nat -> Q) (frets : nat) : option (list Q) :=
  if existsb (fun n => Qeq_bool (pow2 n) 0) (seq 1 frets) then None
  else
    let xs :=
      0 :: map (fun n => jsSub scaleLength (jsDiv scaleLength (pow2 n)))
               (seq 1 frets) in
    let full := List.last xs 0 in
    if Qeq_bool full 0 then None
    else
      let scale := jsDiv (jsSub (jsSub width marginRight) nutWidth) full in
      Some (map (fun x => jsAdd nutWidth (jsMul x scale)) xs).

(** The [forEach] choosing the nearest string; [minDy] starts at
    [Infinity], which is [None]. *)
Definition nearestStep (y : Q) (acc : nat * option Q) (iy : nat * Q) : nat * option Q :=
  let dy := Qabs (y - snd iy) in
  match snd acc with
  | None => (fst iy, Some dy)
  | Some minDy => if Qlt_bool dy minDy then (fst iy, Some dy) else acc
  end.

Definition nearestString (ys : list Q) (y : Q) : nat :=
  fst (fold_left (nearestStep y) (imap (fun i v => (i, v)) ys) (0%nat, None)).

Definition firstFretX (xs : list Q) : Q :=
  match xs !! 1%nat with Some v => v | None => nutWidth + 60 end.

Definition openGrace (xs : list Q) : Q :=
  Qmin 24 ((firstFretX xs - nutWidth) * (1 # 4)).

(** The right edge of the open-string zone. *)
Definition openEdge (xs : list Q) : Q := nutWidth + openPad + openGrace xs.

(** [Math.max(3, Math.ceil(FRET_WIDTH / 2) + 1)]. *)
Definition pad : Q := Qmax 3 (inject_Z (Qceiling (FRET_WIDTH / 2)) + 1).

(** The clickable interval of fret [n], after the shrinking by [pad];
    [None] when a boundary is [undefined]. *)
Definition fretRegion (xs : list Q) (n : nat) : option (Q * Q) :=
  match xs !! (n - 1)%nat, xs !! n with
  | Some x0, Some x1 =>
    if Qlt_bool (pad * 2) (x1 - x0) then Some (x0 + pad, x1 - pad) else Some (x0, x1)
  | _, _ => None
  end.

(** [sp.x >= x0 && sp.x < x1] for fret [n]. *)
Definition inFret (xs : list Q) (x : Q) (n : nat) : bool :=
  match fretRegion xs n with
  | Some (x0, x1) => Qle_bool x0 x && Qlt_bool x x1
  | None => false
  end.

(** The loop [for (n = ...; n <= frets; n += 1)] with its [break];
    [left] iterations remain, and [None] is [fret === -1]. *)
Fixpoint scanFrets (xs : list Q) (x : Q) (n left : nat) : option nat :=
  match left with
  | O => None
  | S left' => if inFret xs x n then Some n else scanFrets xs x (S n) left'
  end.

(** [pickHit], its closure variables [stringYs], [fretXs] and [frets]
    made parameters; [null] is [None]. *)
Definition pickHit (ys xs : list Q) (frets : nat) (sp : DOMPoint) : option Target :=
  let stringIndex := nearestString ys (py sp) in
  if Qle_bool (px sp) (openEdge xs) then Some (mkTarget stringIndex 0)
  else
    match scanFrets xs (px sp) 1 frets with
    | None => None
    | Some n => Some (mkTarget stringIndex n)
    end.

Local Close Scope Q_scope.
Local Close Scope Z_scope.

(** ** Sample data *)

(** The state of [App] at mount. *)
Definition initialSession : Session :=
  mkSession None [] 0%Q false 0 false false [] 0.

(** A session asking for the note [m]. *)
Definition asking (m : Z) : Session :=
  mkSession (Some m) [] 0%Q false 0 false false [] 0.

Definition fourStrings : Config := mkConfig SC4 21 true.

(** A random source whose draws all are one half. *)
Definition halves : nat -> Q := fun _ => (1 # 2)%Q.

(** Every draw of [Math.random] lies in [0, 1). *)
Definition unitDraws (random : nat -> Q) : Prop :=
  forall k, (0 <= random k)%Q /\ (random k < 1)%Q.

(** Fret boundaries are laid out from the nut rightwards. *)
Definition increasing (xs : list Q) : Prop :=
  forall i j a b, i <= j -> xs !! i = Some a -> xs !! j = Some b -> (a <= b)%Q.

(** The single-flight discipline: at most one callback is queued, the
    guard is up exactly while one is, and every advance performed or
    queued is paid for by a [Correct] outcome. *)
Definition singleFlight (st : Session * Tally) : Prop :=
  rafQueue (fst st) <= 1
  /\ (pendingNext (fst st) = true <-> rafQueue (fst st) = 1)
  /\ advances (snd st) + rafQueue (fst st) <= corrects (snd st).

(** Adjacent boundaries are in order: a test for [increasing]. *)
Fixpoint increasingb (xs : list Q) : bool :=
  match xs with
  | a :: (b :: _) as rest => Qle_bool a b && increasingb rest
  | _ => true
  end.

(** The doubles nearest to [2^(n / 12)] for [n <= 24]: a sample of
    [Math.pow(2, n / 12)], exact at the octaves (an engine may differ
    from it in the last bit elsewhere). *)
Definition mathPow2 : list Q :=
  [1;
   4771397596969315 # 4503599627370496;
   78986244726619 # 70368744177664;
   5355712719992597 # 4503599627370496;
   5674179970822795 # 4503599627370496;
   3005792134919727 # 2251799813685248;
   6369051672525773 # 4503599627370496;
   421735949569275 # 281474976710656;
   1787254696532879 # 1125899906842624;
   7574121564787629 # 4503599627370496;
   8024502270083369 # 4503599627370496;
   8501664005755715 # 4503599627370496;
   2;
   4771397596969315 # 2251799813685248;
   78986244726619 # 35184372088832;
   5355712719992597 # 2251799813685248;
   5674179970822795 # 2251799813685248;
   3005792134919727 # 1125899906842624;
   6369051672525773 # 2251799813685248;
   421735949569275 # 140737488355328;
   7149018786131517 # 2251799813685248;
   7574121564787629 # 2251799813685248;
   8024502270083369 # 2251799813685248;
   2125416001438929 # 562949953421312;
   4]%Q.

Definition pow2Sample (n : nat) : Q := default 1%Q (mathPow2 !! n).

(** The string lines of a four-string board without binding. *)
Definition fourLines : list Q := stringYs 4 false.

(** The fret boundaries of a 24-fret board. *)
Definition frets24 : list Q :=
  Eval vm_compute in default [] (fretXs pow2Sample 24).

(** ** The staff view *)

Record VexKey := mkVexKey { key : string; oct : Z; acc : string }.

(** The table [map] of [midiToVexKey]; [undefined] outside [0..11]. *)
Definition vexMap (pc : Z) : option (string * string) :=
  match pc with
  | 0 => Some ("c", "") | 1 => Some ("c", "#")
  | 2 => Some ("d", "") | 3 => Some ("d", "#")
  | 4 => Some ("e", "")
  | 5 => Some ("f", "") | 6 => Some ("f", "#")
  | 7 => Some ("g", "") | 8 => Some ("g", "#")
  | 9 => Some ("a", "") | 10 => Some ("a", "#")
  | 11 => Some ("b", "")
  | _ => None
  end%Z%string.

(** [midiToVexKey]; destructuring [undefined] throws, which is [None]. *)
Definition midiToVexKey (midi : Z) : option VexKey :=
  let pc := Z.rem midi 12 in
  let octave := (Qfloor (inject_Z midi / 12) - 1)%Z in
  match vexMap pc with
  | Some (k, a) => Some (mkVexKey k octave a)
  | None => None
  end.

(** What [StaffNote] hands to the staff renderer: the key of the note,
    the accidental added to it (if any), and the stem direction. *)
Record StaffDrawing := mkStaffDrawing {
  staffKey : string;
  staffAccidental : option string;
  stemDirection : Z
}.

(** The note of [StaffNote]: written an octave above the sounding pitch. *)
Definition staffNote (midi : Z) : option StaffDrawing :=
  let writtenMidi := (midi + 12)%Z in
  match midiToVexKey writtenMidi with
  | None => None
  | Some k =>
    let stemDir := if (52 <=? writtenMidi)%Z then (-1)%Z else 1%Z in
    Some (mkStaffDrawing
            (key k ++ "/" ++ showInt (oct k))%string
            (if String.eqb (acc k) "" then None else Some (acc k))
            stemDir)
  end.

(** The capital of a key letter. *)
Definition capital (s : string) : string :=
  match s with
  | String c rest => String (ascii_of_nat (nat_of_ascii c - 32)) rest
  | EmptyString => EmptyString
  end.

(** ** Inlays *)

(** [inlayFrets]: the marker frets up to the current fret count. *)
Definition inlayFrets (frets : nat) : list nat :=
  let base := [3; 5; 7; 9; 12; 15; 17; 19] in
  let base := if 21 <=? frets then base ++ [21] else base in
  let base := if 24 <=? frets then base ++ [24] else base in
  List.filter (fun n => n <=? frets) base.

(** The ten marker frets of a fretboard. *)
Definition markerFrets : list nat := [3; 5; 7; 9; 12; 15; 17; 19; 21; 24].

(** ** The hover highlight and the pointer handlers *)

(** The rectangle of the hover highlight. *)
Record Rect := mkRect { rx : Q; ry : Q; rw : Q; rh : Q }.

(** The highlight drawn for the hovered cell; [None] when a string line
    or a fret boundary it reads is [undefined]. *)
Definition hoverRect (ys xs : list Q) (hover : Target) : option Rect :=
  match ys !! stringIndex hover with
  | None => None
  | Some yCenter =>
    let h := (heightPerString * (9 # 10))%Q in
    let y := (yCenter - h / 2)%Q in
    if fret hover =? 0 then
      let x0 := 0%Q in
      let x1 := openEdge xs in
      Some (mkRect x0 y (x1 - x0)%Q h)
    else
      match fretRegion xs (fret hover) with
      | None => None
      | Some (x0, x1) =>
        let x0 :=
          if fret hover =? 1 then
            if Qlt_bool x0 (openEdge xs) then Qmin (x1 - 2) (openEdge xs) else x0
          else x0 in
        Some (mkRect x0 y (Qmax 2 (x1 - x0)) h)
      end
  end.

(** [new DOMPoint(width - sp.x, boardHeight - sp.y)]. *)
Definition flipPoint (stringCount : nat) (sp : DOMPoint) : DOMPoint :=
  mkPoint (width - px sp)%Q (boardHeight stringCount - py sp)%Q.

(** The point the pointer handlers give to [pickHit].  [sp] is the event
    point mapped by the inverse screen matrix; [portrait] holds, for a
    viewport in portrait orientation, the fractions [u] and [v] of the
    bounding box at which the event lies. *)
Definition pointerPoint (stringCount : nat) (portrait : option (Q * Q))
    (flipBoth : bool) (sp : DOMPoint) : DOMPoint :=
  let sp :=
    match portrait with
    | Some (u, v) => mkPoint (width * v)%Q (boardHeight stringCount * (1 - u))%Q
    | None => sp
    end in
  if flipBoth then flipPoint stringCount sp else sp.

(** [handlePointerDown]: the hover cell and the session after a press. *)
Definition handlePointerDown (c : Config) (ys xs : list Q)
    (portrait : option (Q * Q)) (flipBoth : bool) (nowTs : Q) (sp : DOMPoint)
    (st : option Target * Session) : (option Target * Session) * option Outcome :=
  let p := pointerPoint (stringCountNum (stringCount c)) portrait flipBoth sp in
  match pickHit ys xs (frets c) p with
  | None => (st, None)
  | Some hit =>
    let '(s', o) := onHit c nowTs hit (snd st) in
    ((Some hit, s'), o)
  end.

(** [handlePointerMove]: only the hover cell follows the pointer. *)
Definition handlePointerMove (c : Config) (ys xs : list Q)
    (portrait : option (Q * Q)) (flipBoth : bool) (sp : DOMPoint)
    (st : option Target * Session) : option Target * Session :=
  let p := pointerPoint (stringCountNum (stringCount c)) portrait flipBoth sp in
  (pickHit ys xs (frets c) p, snd st).



(** * Properties *)

(** ** Comparisons *)

Lemma Qlt_bool_iff (a b : Q) : Qlt_bool a b = true <-> (a < b)%Q.
Proof.
  unfold Qlt_bool. rewrite negb_true_iff. split.
  - intros H. apply Qnot_le_lt. intros Hle.
    apply Qle_bool_iff in Hle. congruence.
  - intros H. destruct (Qle_bool b a) eqn:E; [|reflexivity].
    apply Qle_bool_iff in E. exfalso. exact (Qlt_not_le _ _ H E).
Qed.

Lemma Qlt_bool_false (a b : Q) : Qlt_bool a b = false <-> (b <= a)%Q.
Proof.
  unfold Qlt_bool. rewrite negb_false_iff. apply Qle_bool_iff.
Qed.

Lemma Qle_bool_false (a b : Q) : Qle_bool a b = false <-> (b < a)%Q.
Proof.
  rewrite <- Qlt_bool_iff. unfold Qlt_bool.
  destruct (Qle_bool a b); simpl; intuition congruence.
Qed.

(** ** Note names *)

Lemma floor_midi_div (midi : Z) :
  Qfloor (inject_Z midi / 12) = (midi / 12)%Z.
Proof. symmetry. exact (Zdiv_Qdiv midi 12). Qed.

(** C9: for a pitch [midi >= 0], [midiToNameOctave] is the entry
    [midi mod 12] of a table of twelve sharp-only names, followed by the
    decimal of [floor(midi / 12) - 1]; and [midiToNameOctave 40] is E2. *)
Theorem midiToNameOctave_spec (midi : Z) :
  (0 <= midi)%Z ->
  length NOTE_NAMES_SHARP = 12
  /\ forallb sharpName NOTE_NAMES_SHARP = true
  /\ (exists name,
        NOTE_NAMES_SHARP !! Z.to_nat (midi mod 12) = Some name
        /\ midiToNameOctave midi = (name ++ showInt (midi / 12 - 1))%string)
  /\ midiToNameOctave 40 = "E2"%string.
Proof.
  intros Hpos. split; [reflexivity|]. split; [reflexivity|].
  split; [|reflexivity].
  unfold midiToNameOctave. rewrite floor_midi_div.
  rewrite Z.rem_mod_nonneg by lia.
  assert (Hr : (0 <= midi mod 12 < 12)%Z) by (apply Z.mod_pos_bound; lia).
  unfold noteName.
  destruct (Z.ltb_spec (midi mod 12) 0) as [Hneg|_]; [lia|].
  destruct (NOTE_NAMES_SHARP !! Z.to_nat (midi mod 12)) as [name|] eqn:E.
  - exists name. split; reflexivity.
  - apply lookup_ge_None in E. simpl in E. lia.
Qed.

Lemma midiToNameOctave_spec_witness :
  (0 <= 40)%Z
  /\ exists name,
       NOTE_NAMES_SHARP !! Z.to_nat (40 mod 12) = Some name
       /\ midiToNameOctave 40 = (name ++ showInt (40 / 12 - 1))%string.
Proof.
  split; [lia|].
  exact (proj1 (proj2 (proj2 (midiToNameOctave_spec 40 ltac:(lia))))).
Defined.

(** ** Evaluation of a hit *)

Lemma hitMidi_Some (sc : StringCount) (hit : Target) (m : Z) :
  hitMidi sc hit = Some m <->
  exists open, OPEN_MIDIS sc !! stringIndex hit = Some open
               /\ (open + Z.of_nat (fret hit))%Z = m.
Proof.
  unfold hitMidi. destruct (OPEN_MIDIS sc !! stringIndex hit) as [open|].
  - split.
    + intros [= <-]. exists open. auto.
    + intros (o & [= <-] & <-). reflexivity.
  - split; [discriminate|]. intros (o & Ho & _). discriminate.
Qed.

Lemma sameMidi_true (midi : option Z) (cur : Z) :
  sameMidi midi cur = true <-> midi = Some cur.
Proof.
  destruct midi as [m|]; simpl.
  - rewrite Z.eqb_eq. split; congruence.
  - split; discriminate.
Qed.

(** The outcome of a hit that passes the debounce test. *)
Lemma onHit_accepted_outcome (c : Config) (nowTs : Q) (hit : Target) (s : Session) :
  (60 <= nowTs - lastHitTs s)%Q ->
  snd (onHit c nowTs hit s) =
  match currentMidi s with
  | None => None
  | Some cur =>
    if sameMidi (hitMidi (stringCount c) hit) cur then Some Correct else Some Incorrect
  end.
Proof.
  intros Hacc. apply Qlt_bool_false in Hacc. unfold onHit. rewrite Hacc.
  destruct (currentMidi s) as [cur|]; [|reflexivity].
  destruct (sameMidi _ cur); [|reflexivity].
  destruct (pendingNext s); reflexivity.
Qed.

(** C1: a hit outside the debounce window is [Correct] exactly when the
    open pitch of its string plus its fret is the current target; with
    four strings (open pitches 28, 33, 38, 43) and target 40, both
    (string 1, fret 7) and (string 2, fret 2) are [Correct]. *)
Theorem onHit_judges_by_pitch (c : Config) (nowTs : Q) (s : Session) :
  (60 <= nowTs - lastHitTs s)%Q ->
  (forall hit,
      snd (onHit c nowTs hit s) = Some Correct <->
      exists open, OPEN_MIDIS (stringCount c) !! stringIndex hit = Some open
                   /\ currentMidi s = Some (open + Z.of_nat (fret hit))%Z)
  /\ OPEN_MIDIS SC4 = [28; 33; 38; 43]%Z
  /\ (stringCount c = SC4 -> currentMidi s = Some 40%Z ->
      snd (onHit c nowTs (mkTarget 1 7) s) = Some Correct
      /\ snd (onHit c nowTs (mkTarget 2 2) s) = Some Correct).
Proof.
  intros Hacc.
  assert (Hgen : forall hit,
      snd (onHit c nowTs hit s) = Some Correct <->
      exists open, OPEN_MIDIS (stringCount c) !! stringIndex hit = Some open
                   /\ currentMidi s = Some (open + Z.of_nat (fret hit))%Z).
  { intros hit. rewrite onHit_accepted_outcome by assumption.
    destruct (currentMidi s) as [cur|].
    - destruct (sameMidi _ cur) eqn:E.
      + apply sameMidi_true, hitMidi_Some in E. destruct E as (open & Ho & <-).
        split; [|reflexivity]. intros _. exists open. auto.
      + split; [discriminate|]. intros (open & Ho & [= Hc]).
        assert (sameMidi (hitMidi (stringCount c) hit) cur = true) as E'.
        { apply sameMidi_true, hitMidi_Some. exists open. auto. }
        congruence.
    - split; [discriminate|]. intros (open & _ & Hc). discriminate. }
  split; [exact Hgen|]. split; [reflexivity|].
  intros Hsc Hcur. split; apply Hgen; rewrite Hsc, Hcur; simpl.
  - exists 33%Z. split; reflexivity.
  - exists 38%Z. split; reflexivity.
Qed.

Lemma onHit_judges_by_pitch_witness :
  (60 <= 100 - lastHitTs (asking 40))%Q
  /\ snd (onHit fourStrings 100 (mkTarget 1 7) (asking 40)) = Some Correct
  /\ snd (onHit fourStrings 100 (mkTarget 2 2) (asking 40)) = Some Correct.
Proof.
  assert (H : (60 <= 100 - lastHitTs (asking 40))%Q) by (vm_compute; discriminate).
  split; [exact H|].
  exact (proj2 (proj2 (onHit_judges_by_pitch fourStrings 100 (asking 40) H))
               eq_refl eq_refl).
Defined.

(** ** Debounce *)

Lemma onHit_debounced (c : Config) (nowTs : Q) (hit : Target) (s : Session) :
  (nowTs - lastHitTs s < 60)%Q -> onHit c nowTs hit s = (s, None).
Proof.
  intros H. apply Qlt_bool_iff in H. unfold onHit. rewrite H. reflexivity.
Qed.

Lemma onHit_accepted_stamp (c : Config) (nowTs : Q) (hit : Target) (s : Session) :
  (60 <= nowTs - lastHitTs s)%Q -> lastHitTs (fst (onHit c nowTs hit s)) = nowTs.
Proof.
  intros H. apply Qlt_bool_false in H. unfold onHit. rewrite H.
  destruct (currentMidi s); [|reflexivity].
  destruct (sameMidi _ _); [|reflexivity].
  destruct (pendingNext s); reflexivity.
Qed.

Lemma nextTarget_lastHitTs (random : nat -> Q) (c : Config) (s : Session) :
  lastHitTs (nextTarget random c s) = lastHitTs s.
Proof.
  unfold nextTarget. destruct (deck s); [destruct (shuffle _ _ _)|]; reflexivity.
Qed.

Lemma animationFrame_lastHitTs (random : nat -> Q) (c : Config) (s : Session) :
  lastHitTs (animationFrame random c s) = lastHitTs s.
Proof.
  unfold animationFrame. simpl. induction (rafQueue s) as [|n IH]; [reflexivity|].
  simpl. unfold rafCallback at 1. simpl. rewrite nextTarget_lastHitTs. exact IH.
Qed.

(** C3: a hit arriving less than 60 ms after the last accepted one leaves
    the session as it is and has no outcome, whatever the hit; so of two
    hits less than 60 ms apart, the first of them accepted, only the first
    changes the session, also when an animation frame runs in between. *)
Theorem onHit_debounce (random : nat -> Q) (c : Config) (s : Session)
    (t1 t2 : Q) (h1 h2 : Target) :
  (60 <= t1 - lastHitTs s)%Q ->
  (t2 - t1 < 60)%Q ->
  let s1 := fst (onHit c t1 h1 s) in
  onHit c t2 h2 s1 = (s1, None)
  /\ onHit c t2 h2 (animationFrame random c s1) = (animationFrame random c s1, None).
Proof.
  intros Hacc Hfast s1. split.
  - apply onHit_debounced. unfold s1. rewrite onHit_accepted_stamp by assumption.
    exact Hfast.
  - apply onHit_debounced. rewrite animationFrame_lastHitTs. unfold s1.
    rewrite onHit_accepted_stamp by assumption. exact Hfast.
Qed.

Lemma onHit_debounce_witness :
  (60 <= 100 - lastHitTs (asking 40))%Q /\ (130 - 100 < 60)%Q
  /\ onHit fourStrings 130 (mkTarget 0 3)
           (fst (onHit fourStrings 100 (mkTarget 1 7) (asking 40)))
     = (fst (onHit fourStrings 100 (mkTarget 1 7) (asking 40)), None).
Proof.
  assert (H1 : (60 <= 100 - lastHitTs (asking 40))%Q) by (vm_compute; discriminate).
  assert (H2 : (130 - 100 < 60)%Q) by reflexivity.
  split; [exact H1|]. split; [exact H2|].
  exact (proj1 (onHit_debounce halves fourStrings (asking 40) 100 130
                               (mkTarget 1 7) (mkTarget 0 3) H1 H2)).
Defined.

(** ** No target *)

(** C6, as the claim states it, fails: with no target a hit has no
    outcome at all, it is not judged [Incorrect]. *)
Lemma onHit_no_target_not_incorrect :
  currentMidi initialSession = None
  /\ snd (onHit fourStrings 100 (mkTarget 0 0) initialSession) <> Some Incorrect.
Proof. split; [reflexivity|]. vm_compute. discriminate. Qed.

(** C6, amended: with no target, a hit has no outcome, neither [Correct]
    nor [Incorrect]: no feedback, no sound, no advance.  Inside the
    debounce window the session is unchanged; outside it the session is
    unchanged but for the time stamp, which is set to the time of the
    hit. *)
Theorem onHit_no_target (c : Config) (nowTs : Q) (hit : Target) (s : Session) :
  currentMidi s = None ->
  snd (onHit c nowTs hit s) = None
  /\ ((nowTs - lastHitTs s < 60)%Q -> fst (onHit c nowTs hit s) = s)
  /\ ((60 <= nowTs - lastHitTs s)%Q ->
      fst (onHit c nowTs hit s) =
      mkSession None (deck s) nowTs (pendingNext s) (rafQueue s)
                (shaking s) (showDamage s) (played s) (draws s)).
Proof.
  intros Hnone. unfold onHit. split; [|split].
  - destruct (Qlt_bool _ 60); [reflexivity|]. rewrite Hnone. reflexivity.
  - intros Hin. apply Qlt_bool_iff in Hin. rewrite Hin. reflexivity.
  - intros Hout. apply Qlt_bool_false in Hout. rewrite Hout, Hnone. reflexivity.
Qed.

Lemma onHit_no_target_witness :
  currentMidi initialSession = None
  /\ snd (onHit fourStrings 100 (mkTarget 0 0) initialSession) = None
  /\ lastHitTs (fst (onHit fourStrings 100 (mkTarget 0 0) initialSession)) = 100%Q.
Proof.
  split; [reflexivity|].
  destruct (onHit_no_target fourStrings 100 (mkTarget 0 0) initialSession eq_refl)
    as (H1 & _ & H3).
  split; [exact H1|]. rewrite H3; [reflexivity|]. vm_compute. discriminate.
Defined.

(** ** A wrong hit *)

(** C7: a hit outside the debounce window whose pitch differs from the
    target is [Incorrect]; the target, the deck, the guard and the queue
    of animation-frame callbacks are unchanged, and the feedback flags
    are raised.  The session after the hit is given in full: besides the
    feedback it records the time stamp and, with sound on, the note. *)
Theorem onHit_incorrect_frame (c : Config) (nowTs : Q) (hit : Target)
    (s : Session) (cur : Z) :
  (60 <= nowTs - lastHitTs s)%Q ->
  currentMidi s = Some cur ->
  hitMidi (stringCount c) hit <> Some cur ->
  let s' := fst (onHit c nowTs hit s) in
  snd (onHit c nowTs hit s) = Some Incorrect
  /\ currentMidi s' = currentMidi s
  /\ deck s' = deck s
  /\ pendingNext s' = pendingNext s
  /\ rafQueue s' = rafQueue s
  /\ draws s' = draws s
  /\ shaking s' = true
  /\ showDamage s' = true
  /\ s' = mkSession (currentMidi s) (deck s) nowTs (pendingNext s) (rafQueue s)
                    true true
                    (if soundOn c
                     then played s ++ [hitMidi (stringCount c) hit]
                     else played s)
                    (draws s).
Proof.
  intros Hacc Hcur Hne. apply Qlt_bool_false in Hacc.
  unfold onHit. rewrite Hacc. destruct (currentMidi s) as [cur'|] eqn:Ec; [|discriminate].
  injection Hcur as ->.
  destruct (sameMidi (hitMidi (stringCount c) hit) cur) eqn:E.
  - apply sameMidi_true in E. contradiction.
  - simpl. repeat split; reflexivity.
Qed.

Lemma onHit_incorrect_frame_witness :
  (60 <= 100 - lastHitTs (asking 40))%Q
  /\ currentMidi (asking 40) = Some 40%Z
  /\ hitMidi (stringCount fourStrings) (mkTarget 0 3) <> Some 40%Z
  /\ snd (onHit fourStrings 100 (mkTarget 0 3) (asking 40)) = Some Incorrect.
Proof.
  assert (H1 : (60 <= 100 - lastHitTs (asking 40))%Q) by (vm_compute; discriminate).
  assert (H3 : hitMidi (stringCount fourStrings) (mkTarget 0 3) <> Some 40%Z)
    by (vm_compute; discriminate).
  split; [exact H1|]. split; [reflexivity|]. split; [exact H3|].
  exact (proj1 (onHit_incorrect_frame fourStrings 100 (mkTarget 0 3) (asking 40) 40
                                      H1 eq_refl H3)).
Defined.

(** ** The single-flight guard *)

Lemma onHit_guard (c : Config) (nowTs : Q) (hit : Target) (s : Session) :
  let r := onHit c nowTs hit s in
  (snd r = Some Correct
   /\ pendingNext (fst r) = true
   /\ rafQueue (fst r) = if pendingNext s then rafQueue s else S (rafQueue s))
  \/ (snd r <> Some Correct
      /\ pendingNext (fst r) = pendingNext s
      /\ rafQueue (fst r) = rafQueue s).
Proof.
  unfold onHit. destruct (Qlt_bool _ 60); simpl.
  - right. repeat split; congruence.
  - destruct (currentMidi s) as [cur|]; simpl.
    + destruct (sameMidi _ cur).
      * left. destruct (pendingNext s); simpl; repeat split; reflexivity.
      * right. simpl. repeat split; congruence.
    + right. repeat split; congruence.
Qed.

Lemma nextTarget_refs (random : nat -> Q) (c : Config) (s : Session) :
  pendingNext (nextTarget random c s) = pendingNext s
  /\ rafQueue (nextTarget random c s) = rafQueue s.
Proof.
  unfold nextTarget. destruct (deck s); [destruct (shuffle _ _ _)|]; split; reflexivity.
Qed.

Lemma step_singleFlight (random : nat -> Q) (c : Config) (st : Session * Tally) (e : Event) :
  singleFlight st -> singleFlight (step random c st e).
Proof.
  destruct st as [s t]. unfold singleFlight. simpl. intros (Hle & Hiff & Hpaid).
  destruct e as [nowTs hit|].
  - pose proof (onHit_guard c nowTs hit s) as Hg. simpl in Hg.
    destruct (onHit c nowTs hit s) as [s' o]. simpl in *.
    destruct Hg as [(-> & Hp & Hq)|(Hno & Hp & Hq)].
    + simpl. rewrite Hp, Hq. destruct (pendingNext s) eqn:Ep.
      * assert (rafQueue s = 1) by (apply Hiff; reflexivity).
        repeat split; auto; lia.
      * assert (rafQueue s = 0).
        { destruct (rafQueue s) as [|[|n]]; [reflexivity| |lia].
          assert (false = true) by (apply Hiff; reflexivity). discriminate. }
        repeat split; auto; lia.
    + rewrite Hp, Hq.
      assert (corrects t <= corrects
                (match o with
                 | Some Correct => mkTally (S (corrects t)) (advances t)
                 | _ => t
                 end)
              /\ advances (match o with
                           | Some Correct => mkTally (S (corrects t)) (advances t)
                           | _ => t
                           end) = advances t) as [Hc Ha].
      { destruct o as [[|]|]; simpl; split; auto; lia. }
      rewrite Ha. repeat split; try tauto; lia.
  - unfold animationFrame. simpl.
    destruct (rafQueue s) as [|[|n]] eqn:Eq; [| |lia]; simpl.
    + repeat split; first [lia | discriminate | intros Hup; apply Hiff in Hup; discriminate].
    + repeat split; first [lia | discriminate].
Qed.

Lemma run_singleFlight (random : nat -> Q) (c : Config) (es : list Event)
    (st : Session * Tally) :
  singleFlight st -> singleFlight (run random c es st).
Proof.
  unfold run. revert st. induction es as [|e es IH]; intros st Hst; simpl.
  - exact Hst.
  - apply IH, step_singleFlight, Hst.
Qed.

(** C4: in any run of hits and animation frames that starts with the
    guard down and nothing queued, at most one advance is pending at any
    time, however many [Correct] outcomes precede the frame; the advances
    performed and pending never outnumber the [Correct] outcomes; a hit
    never lowers the guard, and the callback lowers it after its advance. *)
Theorem single_flight_guard (random : nat -> Q) (c : Config) (es : list Event)
    (s : Session) :
  pendingNext s = false ->
  rafQueue s = 0 ->
  let r := run random c es (s, mkTally 0 0) in
  rafQueue (fst r) <= 1
  /\ (pendingNext (fst r) = true <-> rafQueue (fst r) = 1)
  /\ advances (snd r) + rafQueue (fst r) <= corrects (snd r)
  /\ (forall nowTs hit s0,
        pendingNext s0 = true -> pendingNext (fst (onHit c nowTs hit s0)) = true)
  /\ (forall s0,
        pendingNext (rafCallback random c s0) = false
        /\ currentMidi (rafCallback random c s0) = currentMidi (nextTarget random c s0)
        /\ deck (rafCallback random c s0) = deck (nextTarget random c s0)).
Proof.
  intros Hp Hq r.
  assert (Hinv : singleFlight r).
  { apply run_singleFlight. unfold singleFlight. simpl. rewrite Hp, Hq.
    repeat split; try lia; discriminate. }
  destruct Hinv as (H1 & H2 & H3).
  split; [exact H1|]. split; [exact H2|]. split; [exact H3|]. split.
  - intros nowTs hit s0 Hup.
    destruct (onHit_guard c nowTs hit s0) as [(_ & Hg & _)|(_ & Hg & _)]; congruence.
  - intros s0. repeat split; reflexivity.
Qed.

Lemma single_flight_guard_witness :
  let es := [Hit 100 (mkTarget 1 7); Hit 200 (mkTarget 2 2); AnimationFrame] in
  let r := run halves fourStrings es (asking 40, mkTally 0 0) in
  pendingNext (asking 40) = false /\ rafQueue (asking 40) = 0
  /\ corrects (snd r) = 2 /\ advances (snd r) = 1
  /\ advances (snd r) + rafQueue (fst r) <= corrects (snd r).
Proof.
  intros es r. split; [reflexivity|]. split; [reflexivity|].
  split; [reflexivity|]. split; [reflexivity|].
  exact (proj1 (proj2 (proj2 (single_flight_guard halves fourStrings es (asking 40)
                                                  eq_refl eq_refl)))).
Defined.

(** ** The targetable notes are a set *)

Lemma set_add_elem (s : list Z) (y x : Z) : x ∈ set_add s y <-> x ∈ s \/ x = y.
Proof.
  unfold set_add. destruct (existsb (Z.eqb y) s) eqn:E.
  - apply existsb_exists in E. destruct E as (z & Hz & Hyz).
    apply Z.eqb_eq in Hyz. subst z. apply list_elem_of_In in Hz.
    split; [auto|]. intros [H| ->]; assumption.
  - rewrite elem_of_app, list_elem_of_singleton. reflexivity.
Qed.

Lemma set_add_NoDup (s : list Z) (y : Z) : NoDup s -> NoDup (set_add s y).
Proof.
  intros Hs. unfold set_add. destruct (existsb (Z.eqb y) s) eqn:E; [exact Hs|].
  apply NoDup_app. split; [exact Hs|]. split; [|apply NoDup_singleton].
  intros x Hx Hxy. apply list_elem_of_singleton in Hxy. subst x.
  assert (existsb (Z.eqb y) s = true) as E'; [|congruence].
  apply existsb_exists. exists y. split; [apply list_elem_of_In, Hx|apply Z.eqb_refl].
Qed.

Lemma addFrets_spec (open : Z) (fs : list nat) (s : list Z) :
  (NoDup s -> NoDup (fold_left (fun s f => set_add s (open + Z.of_nat f)%Z) fs s))
  /\ forall x, x ∈ fold_left (fun s f => set_add s (open + Z.of_nat f)%Z) fs s
               <-> x ∈ s \/ exists f, f ∈ fs /\ x = (open + Z.of_nat f)%Z.
Proof.
  revert s. induction fs as [|f fs IH]; intros s; simpl.
  - split; [auto|]. intros x. split; [auto|].
    intros [H|(f & Hf & _)]; [exact H|]. inversion Hf.
  - destruct (IH (set_add s (open + Z.of_nat f)%Z)) as [IHn IHe]. split.
    + intros Hs. apply IHn, set_add_NoDup, Hs.
    + intros x. rewrite IHe, set_add_elem. split.
      * intros [[H| ->]|(g & Hg & ->)]; [auto| |].
        -- right. exists f. split; [left|reflexivity].
        -- right. exists g. split; [right; exact Hg|reflexivity].
      * intros [H|(g & Hg & ->)]; [auto|].
        apply elem_of_cons in Hg. destruct Hg as [->|Hg]; [auto|].
        right. exists g. auto.
Qed.

Lemma addStrings_spec (frets : nat) (opens : list Z) (s : list Z) :
  (NoDup s -> NoDup (fold_left (addString frets) opens s))
  /\ forall x, x ∈ fold_left (addString frets) opens s
               <-> x ∈ s \/ exists open f, open ∈ opens /\ f <= frets
                                         /\ x = (open + Z.of_nat f)%Z.
Proof.
  revert s. induction opens as [|open opens IH]; intros s; simpl.
  - split; [auto|]. intros x. split; [auto|].
    intros [H|(o & f & Ho & _)]; [exact H|]. inversion Ho.
  - destruct (IH (addString frets s open)) as [IHn IHe].
    destruct (addFrets_spec open (seq 0 (S frets)) s) as [An Ae].
    fold (addString frets s open) in An, Ae. split.
    + intros Hs. apply IHn, An, Hs.
    + intros x. rewrite IHe, Ae. split.
      * intros [[H|(f & Hf & ->)]|(o & f & Ho & Hf & ->)]; [auto| |].
        -- right. exists open, f. apply elem_of_seq in Hf.
           split; [left|]. split; [lia|reflexivity].
        -- right. exists o, f. split; [right; exact Ho|]. auto.
      * intros [H|(o & f & Ho & Hf & ->)]; [auto|].
        apply elem_of_cons in Ho. destruct Ho as [->|Ho].
        -- left. right. exists f. split; [apply elem_of_seq; lia|reflexivity].
        -- right. exists o, f. auto.
Qed.

Lemma possibleMidis_NoDup (sc : StringCount) (frets : nat) :
  NoDup (possibleMidis sc frets).
Proof. apply addStrings_spec. apply NoDup_nil_2. Qed.

(** The targetable notes are the pitches of the cells of the board. *)
Lemma possibleMidis_elem (sc : StringCount) (frets : nat) (x : Z) :
  x ∈ possibleMidis sc frets <->
  exists t, stringIndex t < stringCountNum sc /\ fret t <= frets
            /\ hitMidi sc t = Some x.
Proof.
  unfold possibleMidis. rewrite (proj2 (addStrings_spec _ _ _)).
  assert (Ht : take (stringCountNum sc) (OPEN_MIDIS sc) = OPEN_MIDIS sc)
    by (destruct sc; reflexivity).
  assert (Hl : length (OPEN_MIDIS sc) = stringCountNum sc)
    by (destruct sc; reflexivity).
  rewrite Ht. split.
  - intros [H|(open & f & Ho & Hf & ->)]; [inversion H|].
    apply list_elem_of_lookup in Ho. destruct Ho as [i Hi].
    exists (mkTarget i f). simpl. split; [|split; [exact Hf|]].
    + rewrite <- Hl. eapply lookup_lt_Some, Hi.
    + unfold hitMidi. simpl. rewrite Hi. reflexivity.
  - intros (t & _ & Hf & Hm). right. apply hitMidi_Some in Hm.
    destruct Hm as (open & Ho & <-). exists open, (fret t).
    split; [eapply list_elem_of_lookup_2, Ho|]. auto.
Qed.

(** ** The shuffle is a permutation *)

Lemma randomIndex_le (r : Q) (i : nat) :
  (0 <= r)%Q -> (r < 1)%Q -> randomIndex r i <= i.
Proof.
  intros H0 H1. unfold randomIndex.
  set (m := inject_Z (Z.of_nat i + 1)).
  assert (Hm : (0 < m)%Q).
  { unfold m. change 0%Q with (inject_Z 0). rewrite <- Zlt_Qlt. lia. }
  assert (Hlt : (r * m < m)%Q).
  { pose proof (Qmult_lt_compat_r r 1 m Hm H1) as H.
    rewrite Qmult_1_l in H. exact H. }
  assert (Hfl : (Qfloor (r * m) < Z.of_nat i + 1)%Z).
  { rewrite Zlt_Qlt. fold m.
    eapply Qle_lt_trans; [apply Qfloor_le|exact Hlt]. }
  lia.
Qed.

Lemma swap_perm (a : list Z) (i j : nat) :
  i < length a -> j < length a ->
  swap a i j ≡ₚ a /\ length (swap a i j) = length a.
Proof.
  intros Hi Hj. unfold swap.
  destruct (lookup_lt_is_Some_2 a i Hi) as [ai Hai].
  destruct (lookup_lt_is_Some_2 a j Hj) as [aj Haj].
  rewrite Hai, Haj. split.
  - exact (Permutation_insert_swap a i j ai aj Hai Haj).
  - rewrite !length_insert. reflexivity.
Qed.

Lemma shuffleFrom_perm (random : nat -> Q) (i : nat) :
  unitDraws random ->
  forall a k, i < length a \/ i = 0 -> fst (shuffleFrom random i a k) ≡ₚ a.
Proof.
  intros Hu. induction i as [|i IH]; intros a k Hi; simpl; [reflexivity|].
  destruct Hi as [Hi|Hi]; [|discriminate].
  destruct (Hu k) as [H0 H1].
  pose proof (randomIndex_le (random k) (S i) H0 H1) as Hj.
  destruct (swap_perm a (S i) (randomIndex (random k) (S i))) as [Hp Hl];
    [lia|lia|].
  rewrite IH; [exact Hp|]. left. rewrite Hl. lia.
Qed.

Lemma shuffle_perm (random : nat -> Q) (arr : list Z) (k : nat) :
  unitDraws random -> fst (shuffle random arr k) ≡ₚ arr.
Proof.
  intros Hu. unfold shuffle. apply shuffleFrom_perm; [exact Hu|].
  destruct arr; simpl; [right; reflexivity|left; lia].
Qed.

(** ** Advancing through the deck *)

Lemma nextTarget_draw (random : nat -> Q) (c : Config) (s : Session) (x : Z) (d : list Z) :
  deck s = x :: d ->
  currentMidi (nextTarget random c s) = Some x
  /\ deck (nextTarget random c s) = d
  /\ draws (nextTarget random c s) = draws s.
Proof. intros H. unfold nextTarget. rewrite H. auto. Qed.

Lemma nextTarget_refill (random : nat -> Q) (c : Config) (s : Session) :
  deck s = [] ->
  let d := fst (shuffle random (possibleMidis (stringCount c) (frets c)) (draws s)) in
  currentMidi (nextTarget random c s) = head d
  /\ deck (nextTarget random c s) = tail d.
Proof.
  intros H. unfold nextTarget. rewrite H.
  destruct (shuffle _ _ _) as [d k]. auto.
Qed.

Lemma advanceN_deck (random : nat -> Q) (c : Config) (d : list Z) :
  forall s, deck s = d ->
  fst (advanceN random c (length d) s) = Some <$> d
  /\ deck (snd (advanceN random c (length d) s)) = [].
Proof.
  induction d as [|x d IH]; intros s Hs; simpl; [auto|].
  destruct (nextTarget_draw random c s x d Hs) as (Hc & Hd & _).
  destruct (IH (nextTarget random c s) Hd) as [IH1 IH2].
  destruct (advanceN random c (length d) (nextTarget random c s)) as [shown s''].
  simpl in *. rewrite Hc, IH1. auto.
Qed.

Lemma nextTarget_deck_within (random : nat -> Q) (c : Config) (s : Session) :
  unitDraws random ->
  (forall x, x ∈ deck s -> x ∈ possibleMidis (stringCount c) (frets c)) ->
  forall x, x ∈ deck (nextTarget random c s) ->
            x ∈ possibleMidis (stringCount c) (frets c).
Proof.
  intros Hu Hin x Hx. destruct (deck s) as [|y d] eqn:E.
  - destruct (nextTarget_refill random c s E) as [_ Hd]. rewrite Hd in Hx.
    rewrite <- (shuffle_perm random _ (draws s) Hu).
    destruct (fst (shuffle _ _ _)); simpl in Hx; [inversion Hx|].
    right. exact Hx.
  - destruct (nextTarget_draw random c s y d E) as (_ & Hd & _).
    rewrite Hd in Hx. apply Hin. right. exact Hx.
Qed.

Lemma step_deck_within (random : nat -> Q) (c : Config) (st : Session * Tally) (e : Event) :
  unitDraws random ->
  (forall x, x ∈ deck (fst st) -> x ∈ possibleMidis (stringCount c) (frets c)) ->
  forall x, x ∈ deck (fst (step random c st e)) ->
            x ∈ possibleMidis (stringCount c) (frets c).
Proof.
  intros Hu. destruct st as [s t]. simpl. destruct e as [nowTs hit|]; simpl.
  - assert (Hd : deck (fst (onHit c nowTs hit s)) = deck s).
    { unfold onHit. destruct (Qlt_bool _ 60); [reflexivity|].
      destruct (currentMidi s); [|reflexivity].
      destruct (sameMidi _ _); [|reflexivity].
      destruct (pendingNext s); reflexivity. }
    destruct (onHit c nowTs hit s) as [s' o]. simpl in *. rewrite Hd. auto.
  - unfold animationFrame. simpl.
    induction (rafQueue s) as [|n IH]; simpl; [auto|].
    intros Hin. unfold rafCallback at 1. simpl.
    apply nextTarget_deck_within; [exact Hu|]. apply IH, Hin.
Qed.

Lemma run_deck_within (random : nat -> Q) (c : Config) (es : list Event)
    (st : Session * Tally) :
  unitDraws random ->
  (forall x, x ∈ deck (fst st) -> x ∈ possibleMidis (stringCount c) (frets c)) ->
  forall x, x ∈ deck (fst (run random c es st)) ->
            x ∈ possibleMidis (stringCount c) (frets c).
Proof.
  intros Hu. unfold run. revert st.
  induction es as [|e es IH]; intros st Hst; simpl; [exact Hst|].
  apply IH. apply step_deck_within; assumption.
Qed.

Lemma halves_unitDraws : unitDraws halves.
Proof. intros k. split; [discriminate|reflexivity]. Qed.

(** C2: the targetable notes [reach] have no repeats.  From a deck that
    is a permutation of [reach], [length reach] calls of [nextTarget]
    present the deck in order, each note once, and leave it empty; from
    an empty deck they present a fresh permutation of [reach] and leave
    the deck empty again.  [nextTarget] reshuffles when the deck is empty
    and draws nothing from [Math.random] otherwise; and in every run the
    notes of the deck stay among [reach]; the deck installed when the
    configuration changes is a permutation of [reach] too. *)
Theorem deck_non_repetition (random : nat -> Q) (c : Config) (s : Session) :
  unitDraws random ->
  let reach := possibleMidis (stringCount c) (frets c) in
  let r := advanceN random c (length reach) s in
  NoDup reach
  /\ (deck s ≡ₚ reach ->
      fst r = Some <$> deck s /\ NoDup (deck s) /\ deck (snd r) = [])
  /\ (deck s = [] ->
      exists shown, fst r = Some <$> shown /\ shown ≡ₚ reach /\ NoDup shown
                    /\ deck (snd r) = [])
  /\ (deck s = [] ->
      exists d, d ≡ₚ reach
                /\ currentMidi (nextTarget random c s) = head d
                /\ deck (nextTarget random c s) = tail d)
  /\ (deck s <> [] ->
      currentMidi (nextTarget random c s) = head (deck s)
      /\ deck (nextTarget random c s) = tail (deck s)
      /\ draws (nextTarget random c s) = draws s)
  /\ ((forall x, x ∈ deck s -> x ∈ reach) ->
      forall es t x, x ∈ deck (fst (run random c es (s, t))) -> x ∈ reach)
  /\ deck (configure random c s) ≡ₚ reach.
Proof.
  intros Hu reach r.
  pose proof (possibleMidis_NoDup (stringCount c) (frets c)) as Hnd.
  fold reach in Hnd.
  split; [exact Hnd|]. split; [|split; [|split; [|split; [|split]]]].
  - intros Hp. unfold r. rewrite <- (Permutation_length Hp).
    destruct (advanceN_deck random c (deck s) s eq_refl) as [H1 H2].
    split; [exact H1|]. split; [|exact H2]. rewrite Hp. exact Hnd.
  - intros He.
    pose proof (shuffle_perm random reach (draws s) Hu) as Hp.
    destruct (nextTarget_refill random c s He) as [Hc Hd].
    fold reach in Hc, Hd.
    set (d := fst (shuffle random reach (draws s))) in *.
    exists d. split; [|split; [exact Hp|split; [rewrite Hp; exact Hnd|]]].
    + unfold r. rewrite <- (Permutation_length Hp).
      destruct d as [|x d']; [reflexivity|]. simpl in *.
      destruct (advanceN_deck random c d' (nextTarget random c s) Hd) as [H1 H2].
      destruct (advanceN random c (length d') (nextTarget random c s)) as [shown s''].
      simpl in *. rewrite Hc, H1. reflexivity.
    + unfold r. rewrite <- (Permutation_length Hp).
      destruct d as [|x d']; [exact He|]. simpl in *.
      destruct (advanceN_deck random c d' (nextTarget random c s) Hd) as [H1 H2].
      destruct (advanceN random c (length d') (nextTarget random c s)) as [shown s''].
      exact H2.
  - intros He. exists (fst (shuffle random reach (draws s))).
    split; [apply shuffle_perm, Hu|]. exact (nextTarget_refill random c s He).
  - intros Hne. destruct (deck s) as [|x d] eqn:E; [congruence|].
    exact (nextTarget_draw random c s x d E).
  - intros Hin es t. exact (run_deck_within random c es (s, t) Hu Hin).
  - pose proof (shuffle_perm random reach (draws s) Hu) as Hp.
    unfold configure. fold reach.
    destruct (shuffle random reach (draws s)) as [d k]. exact Hp.
Qed.

Lemma deck_non_repetition_witness :
  unitDraws halves /\ deck initialSession = []
  /\ exists shown,
       fst (advanceN halves fourStrings (length (possibleMidis SC4 21)) initialSession)
       = Some <$> shown
       /\ shown ≡ₚ possibleMidis SC4 21 /\ NoDup shown.
Proof.
  split; [exact halves_unitDraws|]. split; [reflexivity|].
  destruct (proj1 (proj2 (proj2
              (deck_non_repetition halves fourStrings initialSession halves_unitDraws)))
              eq_refl) as (shown & H1 & H2 & H3 & _).
  exists shown. auto.
Defined.

(** ** The nearest string *)

Lemma nearest_fold (y : Q) (ps : list (nat * Q)) :
  ps <> [] ->
  let r := fold_left (nearestStep y) ps (0, None) in
  exists v, (fst r, v) ∈ ps
            /\ snd r = Some (Qabs (y - v))
            /\ forall p, p ∈ ps -> (Qabs (y - v) <= Qabs (y - snd p))%Q.
Proof.
  induction ps as [|p ps IH] using rev_ind; [congruence|]. intros _.
  cbv zeta. rewrite fold_left_app. cbn [fold_left].
  destruct (decide (ps = [])) as [->|Hne].
  - cbn [fold_left app]. unfold nearestStep. cbn [fst snd]. exists (snd p).
    split; [destruct p; left|]. split; [reflexivity|].
    intros p' Hp'. apply list_elem_of_singleton in Hp'. subst p'. apply Qle_refl.
  - destruct (IH Hne) as (v & Hin & Hmin & Hall). clear IH.
    set (r := fold_left (nearestStep y) ps (0, None)) in *.
    unfold nearestStep. rewrite Hmin.
    destruct (Qlt_bool (Qabs (y - snd p)) (Qabs (y - v))) eqn:Elt.
    + apply Qlt_bool_iff in Elt. cbn [fst snd]. exists (snd p).
      split; [apply elem_of_app; right; destruct p; left|]. split; [reflexivity|].
      intros p' Hp'. apply elem_of_app in Hp'. destruct Hp' as [Hp'|Hp'].
      * apply Qlt_le_weak. eapply Qlt_le_trans; [exact Elt|apply Hall, Hp'].
      * apply list_elem_of_singleton in Hp'. subst p'. apply Qle_refl.
    + apply Qlt_bool_false in Elt. exists v.
      split; [apply elem_of_app; left; exact Hin|]. split; [exact Hmin|].
      intros p' Hp'. apply elem_of_app in Hp'. destruct Hp' as [Hp'|Hp'].
      * apply Hall, Hp'.
      * apply list_elem_of_singleton in Hp'. subst p'. exact Elt.
Qed.

(** On a board with a string, [nearestString] is the index of a string
    line, and no line is closer to [y]. *)
Lemma nearestString_spec (ys : list Q) (y : Q) :
  ys <> [] ->
  exists v, ys !! nearestString ys y = Some v
            /\ forall j w, ys !! j = Some w -> (Qabs (y - v) <= Qabs (y - w))%Q.
Proof.
  intros Hne. unfold nearestString.
  destruct (nearest_fold y (imap (fun i v => (i, v)) ys)) as (v & Hin & _ & Hall).
  { destruct ys; [congruence|discriminate]. }
  exists v. split.
  - apply elem_of_lookup_imap in Hin. destruct Hin as (i & w & [= Hi Hv] & Hl).
    rewrite Hi, Hv. exact Hl.
  - intros j w Hj.
    apply (Hall (j, w)). apply elem_of_lookup_imap. exists j, w. auto.
Qed.

Lemma nearestString_lt (ys : list Q) (y : Q) :
  1 <= length ys -> nearestString ys y < length ys.
Proof.
  intros Hlen. destruct (nearestString_spec ys y) as (v & Hv & _).
  - destruct ys; [simpl in Hlen; lia|discriminate].
  - eapply lookup_lt_Some, Hv.
Qed.

Lemma stringYs_length (stringCount : nat) (binding : bool) :
  length (stringYs stringCount binding) = stringCount.
Proof. unfold stringYs. rewrite length_map, length_seq. reflexivity. Qed.

(** ** The scan of the fret regions *)

Lemma scanFrets_Some (xs : list Q) (x : Q) (left n m : nat) :
  scanFrets xs x n left = Some m <->
  n <= m < n + left
  /\ inFret xs x m = true
  /\ forall k, n <= k < m -> inFret xs x k = false.
Proof.
  revert n. induction left as [|left IH]; intros n; simpl.
  - split; [discriminate|]. intros (H & _). lia.
  - destruct (inFret xs x n) eqn:E.
    + split.
      * intros [= <-]. split; [lia|]. split; [exact E|]. intros k Hk. lia.
      * intros (Hm & Hin & Hbefore).
        destruct (decide (n = m)) as [->|Hne]; [reflexivity|].
        rewrite Hbefore in E by lia. discriminate.
    + rewrite IH. split.
      * intros (Hm & Hin & Hbefore). split; [lia|]. split; [exact Hin|].
        intros k Hk. destruct (decide (k = n)) as [->|Hne]; [exact E|].
        apply Hbefore. lia.
      * intros (Hm & Hin & Hbefore).
        destruct (decide (n = m)) as [->|Hne]; [congruence|].
        split; [lia|]. split; [exact Hin|]. intros k Hk. apply Hbefore. lia.
Qed.

Lemma scanFrets_None (xs : list Q) (x : Q) (left n : nat) :
  scanFrets xs x n left = None <->
  forall k, n <= k < n + left -> inFret xs x k = false.
Proof.
  revert n. induction left as [|left IH]; intros n; simpl.
  - split; [|reflexivity]. intros _ k Hk. lia.
  - destruct (inFret xs x n) eqn:E.
    + split; [discriminate|]. intros H. rewrite H in E by lia. discriminate.
    + rewrite IH. split.
      * intros H k Hk. destruct (decide (k = n)) as [->|Hne]; [exact E|].
        apply H. lia.
      * intros H k Hk. apply H. lia.
Qed.

(** C10: on a board with at least one string, [pickHit] returns [null]
    or a cell whose string index is below the string count and whose fret
    is at most the fret count; [stringYs] has one line per string. *)
Theorem pickHit_in_range (stringCount frets : nat) (ys xs : list Q) (sp : DOMPoint) :
  1 <= stringCount ->
  length ys = stringCount ->
  length (stringYs stringCount false) = stringCount
  /\ length (stringYs stringCount true) = stringCount
  /\ match pickHit ys xs frets sp with
     | None => True
     | Some t => stringIndex t < stringCount /\ fret t <= frets
     end.
Proof.
  intros Hsc Hlen. split; [apply stringYs_length|]. split; [apply stringYs_length|].
  assert (Hs : nearestString ys (py sp) < stringCount).
  { rewrite <- Hlen. apply nearestString_lt. lia. }
  unfold pickHit. destruct (Qle_bool (px sp) (openEdge xs)).
  - simpl. split; [exact Hs|lia].
  - destruct (scanFrets xs (px sp) 1 frets) as [n|] eqn:E; [|exact I].
    apply scanFrets_Some in E. simpl. split; [exact Hs|lia].
Qed.

Lemma pickHit_in_range_witness :
  1 <= 4 /\ length fourLines = 4
  /\ match pickHit fourLines frets24 24 (mkPoint 1045 50) with
     | None => True
     | Some t => stringIndex t < 4 /\ fret t <= 24
     end.
Proof.
  assert (H1 : 1 <= 4) by lia.
  assert (H2 : length fourLines = 4) by reflexivity.
  split; [exact H1|]. split; [exact H2|].
  exact (proj2 (proj2 (pickHit_in_range 4 24 fourLines frets24 (mkPoint 1045 50) H1 H2))).
Defined.

(** ** The open-string zone *)

Lemma roundDouble_comp (x y : Q) : (x == y)%Q -> roundDouble x = roundDouble y.
Proof.
  intros H. unfold roundDouble. rewrite (Qred_complete x y H). reflexivity.
Qed.

(** [roundDouble] on 0.1 and -1/3 gives the doubles JavaScript has for
    them, and keeps a number that is a double already. *)
Lemma roundDouble_samples :
  roundDouble (1 # 10) = (3602879701896397 # 36028797018963968)%Q
  /\ roundDouble (- (1 # 3)) = (- 6004799503160661 # 18014398509481984)%Q
  /\ roundDouble 1050 = 1050%Q.
Proof. vm_compute. repeat split. Qed.

Lemma frets24_computed : fretXs pow2Sample 24 = Some frets24.
Proof. vm_compute. reflexivity. Qed.

Lemma fretXs_nut (pow2 : nat -> Q) (frets : nat) (xs : list Q) :
  fretXs pow2 frets = Some xs ->
  exists x0, xs !! 0 = Some x0 /\ (x0 == nutWidth)%Q.
Proof.
  unfold fretXs. destruct (existsb _ _); [discriminate|].
  destruct (Qeq_bool _ 0); [discriminate|]. intros [= <-].
  cbn [map lookup list_lookup]. eexists. split; [reflexivity|].
  unfold jsAdd, jsMul.
  set (scale := jsDiv _ _).
  assert (E : roundDouble (0 * scale) = 0%Q).
  { rewrite (roundDouble_comp (0 * scale) 0) by ring. reflexivity. }
  rewrite E. vm_compute. reflexivity.
Qed.

(** C8: a point whose x is at most nut width + open pad + grace, the
    grace being the smaller of 24 and a quarter of the distance from the
    nut to the first fret, is the open string (fret 0) of the nearest
    string line, whatever fret region contains it. *)
Theorem open_string_zone (ys xs : list Q) (frets : nat) (sp : DOMPoint) :
  (px sp <= nutWidth + openPad + Qmin 24 ((firstFretX xs - nutWidth) * (1 # 4)))%Q ->
  pickHit ys xs frets sp = Some (mkTarget (nearestString ys (py sp)) 0)
  /\ (ys <> [] ->
      exists v, ys !! nearestString ys (py sp) = Some v
                /\ forall j w, ys !! j = Some w ->
                               (Qabs (py sp - v) <= Qabs (py sp - w))%Q)
  /\ (forall x1, xs !! 1 = Some x1 -> firstFretX xs = x1)
  /\ (forall pow2 n bs, fretXs pow2 n = Some bs ->
      exists x0, bs !! 0 = Some x0 /\ (x0 == nutWidth)%Q).
Proof.
  intros Hx. split; [|split; [|split]].
  - unfold pickHit. fold (openGrace xs) in Hx. fold (openEdge xs) in Hx.
    apply Qle_bool_iff in Hx. rewrite Hx. reflexivity.
  - intros Hne. apply nearestString_spec, Hne.
  - intros x1 H1. unfold firstFretX. rewrite H1. reflexivity.
  - intros pow2 n bs. apply fretXs_nut.
Qed.

Lemma open_string_zone_witness :
  (50 <= nutWidth + openPad + Qmin 24 ((firstFretX frets24 - nutWidth) * (1 # 4)))%Q
  /\ inFret frets24 50 1 = true
  /\ pickHit fourLines frets24 24 (mkPoint 50 50) = Some (mkTarget 3 0).
Proof.
  assert (H : (px (mkPoint 50 50)
               <= nutWidth + openPad
                  + Qmin 24 ((firstFretX frets24 - nutWidth) * (1 # 4)))%Q)
    by (vm_compute; discriminate).
  split; [exact H|]. split; [reflexivity|].
  exact (proj1 (open_string_zone fourLines frets24 24 (mkPoint 50 50) H)).
Defined.

(** ** The fret regions *)

Lemma pad_eq : pad = 4%Q.
Proof. reflexivity. Qed.

Lemma inFret_spec (xs : list Q) (x : Q) (n : nat) :
  inFret xs x n = true <->
  exists x0 x1,
    xs !! (n - 1) = Some x0 /\ xs !! n = Some x1
    /\ ((8 < x1 - x0 /\ x0 + 4 <= x /\ x < x1 - 4)
        \/ (x1 - x0 <= 8 /\ x0 <= x /\ x < x1))%Q.
Proof.
  unfold inFret, fretRegion. rewrite pad_eq.
  destruct (xs !! (n - 1)) as [x0|]; [destruct (xs !! n) as [x1|]|].
  - destruct (Qlt_bool (4 * 2) (x1 - x0)) eqn:E.
    + apply Qlt_bool_iff in E.
      rewrite andb_true_iff, Qle_bool_iff, Qlt_bool_iff. split.
      * intros [H1 H2]. exists x0, x1. split; [reflexivity|]. split; [reflexivity|].
        left. split; [lra|]. split; assumption.
      * intros (a & b & [= <-] & [= <-] & [(_ & H1 & H2)|(H & _)]); [auto|lra].
    + apply Qlt_bool_false in E.
      rewrite andb_true_iff, Qle_bool_iff, Qlt_bool_iff. split.
      * intros [H1 H2]. exists x0, x1. split; [reflexivity|]. split; [reflexivity|].
        right. split; [lra|]. split; assumption.
      * intros (a & b & [= <-] & [= <-] & [(H & _)|(_ & H1 & H2)]); [lra|auto].
  - split; [discriminate|]. intros (a & b & _ & Hb & _). discriminate.
  - split; [discriminate|]. intros (a & b & Ha & _). discriminate.
Qed.

(** A point left of boundary [m] is in no region beyond fret [m]. *)
Lemma inFret_before (xs : list Q) (x b : Q) (m k : nat) :
  increasing xs -> xs !! m = Some b -> (x < b)%Q -> m < k ->
  inFret xs x k = false.
Proof.
  intros Hinc Hm Hx Hk. destruct (inFret xs x k) eqn:E; [|reflexivity].
  apply inFret_spec in E. destruct E as (x0 & x1 & H0 & _ & Hin).
  assert (Hb : (b <= x0)%Q) by (apply (Hinc m (k - 1) b x0); [lia|auto|auto]).
  destruct Hin as [(_ & H1 & _)|(_ & H1 & _)]; lra.
Qed.

(** A point at or right of boundary [m] is in no region up to fret [m]. *)
Lemma inFret_after (xs : list Q) (x b : Q) (m k : nat) :
  increasing xs -> xs !! m = Some b -> (b <= x)%Q -> k <= m ->
  inFret xs x k = false.
Proof.
  intros Hinc Hm Hx Hk. destruct (inFret xs x k) eqn:E; [|reflexivity].
  apply inFret_spec in E. destruct E as (x0 & x1 & _ & H1 & Hin).
  assert (Hb : (x1 <= b)%Q) by (apply (Hinc k m x1 b); [lia|auto|auto]).
  destruct Hin as [(_ & _ & H2)|(_ & _ & H2)]; lra.
Qed.

Lemma pickHit_beyond (ys xs : list Q) (frets : nat) (sp : DOMPoint) :
  (openEdge xs < px sp)%Q ->
  pickHit ys xs frets sp =
  match scanFrets xs (px sp) 1 frets with
  | None => None
  | Some n => Some (mkTarget (nearestString ys (py sp)) n)
  end.
Proof.
  intros H. apply Qle_bool_false in H. unfold pickHit. rewrite H. reflexivity.
Qed.

Lemma increasingb_head (xs : list Q) :
  forall a, increasingb (a :: xs) = true ->
  forall j b, (a :: xs) !! j = Some b -> (a <= b)%Q.
Proof.
  induction xs as [|c xs IH]; intros a H j b Hj.
  - destruct j; [|discriminate]. injection Hj as <-. apply Qle_refl.
  - destruct j as [|j]; [injection Hj as <-; apply Qle_refl|].
    cbn [increasingb] in H. apply andb_true_iff in H. destruct H as [Hac Hrest].
    apply Qle_bool_iff in Hac. eapply Qle_trans; [exact Hac|].
    exact (IH c Hrest j b Hj).
Qed.

Lemma increasingb_sound (xs : list Q) : increasingb xs = true -> increasing xs.
Proof.
  induction xs as [|c xs IH]; intros H i j a b Hij Hi Hj.
  - discriminate.
  - destruct i as [|i].
    + injection Hi as <-. exact (increasingb_head xs c H j b Hj).
    + destruct j as [|j]; [lia|].
      assert (Hrest : increasingb xs = true).
      { destruct xs; [reflexivity|]. cbn [increasingb] in H.
        apply andb_true_iff in H. tauto. }
      apply (IH Hrest i j a b); [lia|exact Hi|exact Hj].
Qed.

(** C5, as the claim states it, fails: on the 24-fret board the point at
    boundary 12 (x = 1050), beyond the open zone, is in no fret region;
    it does not belong to fret 13. *)
Lemma boundary_point_is_no_hit :
  (exists b, frets24 !! 12 = Some b /\ (b == 1050)%Q)
  /\ (openEdge frets24 < 1050)%Q
  /\ pickHit fourLines frets24 24 (mkPoint 1050 50) = None
  /\ pickHit fourLines frets24 24 (mkPoint 1050 50) <> Some (mkTarget 3 13).
Proof.
  split; [eexists; split; [reflexivity|reflexivity]|].
  split; [reflexivity|]. split; [reflexivity|]. vm_compute. discriminate.
Qed.

(** C5, amended: beyond the open zone and for increasing boundaries,
    fret region [n] is [[b(n-1) + 4, b(n) - 4)] when [b(n) - b(n-1) > 8]
    and [[b(n-1), b(n))] otherwise, and the hit is the first region that
    contains the point.  A point exactly at boundary [n] belongs to fret
    [n + 1] when that region is too narrow to be shrunk, and is no hit
    when it is shrunk.  A point before the first fret boundary is fret 1
    inside fret 1's region and no hit outside it, in particular left of
    that region's start. *)
Theorem fret_regions (ys xs : list Q) (frets : nat) (sp : DOMPoint) :
  (openEdge xs < px sp)%Q ->
  increasing xs ->
  let x := px sp in
  let s := nearestString ys (py sp) in
  (forall n,
      inFret xs x n = true <->
      exists x0 x1,
        xs !! (n - 1) = Some x0 /\ xs !! n = Some x1
        /\ ((8 < x1 - x0 /\ x0 + 4 <= x /\ x < x1 - 4)
            \/ (x1 - x0 <= 8 /\ x0 <= x /\ x < x1))%Q)
  /\ (forall n,
      pickHit ys xs frets sp = Some (mkTarget s n) <->
      1 <= n <= frets /\ inFret xs x n = true
      /\ forall k, 1 <= k < n -> inFret xs x k = false)
  /\ (forall n b b',
      n < frets -> xs !! n = Some b -> xs !! S n = Some b' -> (x == b)%Q ->
      ((b < b')%Q -> (b' - b <= 8)%Q ->
       pickHit ys xs frets sp = Some (mkTarget s (S n)))
      /\ ((8 < b' - b)%Q -> pickHit ys xs frets sp = None))
  /\ (forall b1,
      1 <= frets -> xs !! 1 = Some b1 -> (x < b1)%Q ->
      pickHit ys xs frets sp = if inFret xs x 1 then Some (mkTarget s 1) else None)
  /\ (forall x0 x1,
      1 <= frets -> fretRegion xs 1 = Some (x0, x1) -> (x < x0)%Q ->
      pickHit ys xs frets sp = None).
Proof.
  intros Hopen Hinc x s.
  assert (Hfirst : forall b1, 1 <= frets -> xs !! 1 = Some b1 -> (x < b1)%Q ->
            pickHit ys xs frets sp
            = if inFret xs x 1 then Some (mkTarget s 1) else None).
  { intros b1 Hf H1 Hx. rewrite pickHit_beyond by exact Hopen. fold x s.
    destruct (inFret xs x 1) eqn:E.
    - assert (Hs : scanFrets xs x 1 frets = Some 1); [|rewrite Hs; reflexivity].
      apply scanFrets_Some. split; [lia|]. split; [exact E|]. intros k Hk. lia.
    - assert (Hs : scanFrets xs x 1 frets = None); [|rewrite Hs; reflexivity].
      apply scanFrets_None. intros k Hk.
      destruct (decide (k = 1)) as [->|Hne]; [exact E|].
      apply (inFret_before xs x b1 1 k); auto. lia. }
  split; [intros n; apply inFret_spec|]. split; [|split; [|split]].
  - intros n. rewrite pickHit_beyond by exact Hopen. fold x s. split.
    + intros H. destruct (scanFrets xs x 1 frets) as [m|] eqn:E; [|discriminate].
      injection H as <-. apply scanFrets_Some in E.
      destruct E as (Hm & Hin & Hbefore). split; [lia|]. split; assumption.
    + intros (Hn & Hin & Hbefore).
      assert (Hs : scanFrets xs x 1 frets = Some n); [|rewrite Hs; reflexivity].
      apply scanFrets_Some. split; [lia|]. split; assumption.
  - intros n b b' Hn Hb Hb' Hxb. split.
    + intros Hlt Hnarrow. rewrite pickHit_beyond by exact Hopen. fold x s.
      assert (Hs : scanFrets xs x 1 frets = Some (S n)); [|rewrite Hs; reflexivity].
      apply scanFrets_Some. split; [lia|]. split.
      * apply inFret_spec. exists b, b'.
        replace (S n - 1) with n by lia. split; [exact Hb|]. split; [exact Hb'|].
        right. lra.
      * intros k Hk. apply (inFret_after xs x b n k); auto; [lra|lia].
    + intros Hwide. rewrite pickHit_beyond by exact Hopen. fold x s.
      assert (Hs : scanFrets xs x 1 frets = None); [|rewrite Hs; reflexivity].
      apply scanFrets_None. intros k Hk.
      destruct (Nat.lt_trichotomy k (S n)) as [Hlt|[->|Hgt]].
      * apply (inFret_after xs x b n k); auto; [lra|lia].
      * destruct (inFret xs x (S n)) eqn:E; [|reflexivity].
        apply inFret_spec in E. destruct E as (x0 & x1 & H0 & H1 & Hin).
        replace (S n - 1) with n in H0 by lia.
        rewrite Hb in H0. rewrite Hb' in H1.
        injection H0 as <-. injection H1 as <-.
        destruct Hin as [(_ & H2 & _)|(H2 & _)]; lra.
      * apply (inFret_before xs x b' (S n) k); auto. lra.
  - exact Hfirst.
  - intros x0 x1 Hf Hreg Hx. unfold fretRegion in Hreg. rewrite pad_eq in Hreg.
    cbn [Nat.sub] in Hreg.
    destruct (xs !! 0) as [b0|] eqn:E0; [|discriminate].
    destruct (xs !! 1) as [b1|] eqn:E1; [|discriminate].
    assert (Hb : (b0 <= b1)%Q) by (apply (Hinc 0 1 b0 b1); auto).
    assert (Hno : inFret xs x 1 = false).
    { destruct (inFret xs x 1) eqn:E; [|reflexivity].
      apply inFret_spec in E. destruct E as (a0 & a1 & H0 & H1 & Hin).
      cbn [Nat.sub] in H0. rewrite E0 in H0. rewrite E1 in H1.
      injection H0 as <-. injection H1 as <-.
      destruct (Qlt_bool (4 * 2) (b1 - b0)) eqn:Ew.
      - apply Qlt_bool_iff in Ew. injection Hreg as <- <-.
        destruct Hin as [(_ & H2 & _)|(H2 & _)]; lra.
      - apply Qlt_bool_false in Ew. injection Hreg as <- <-.
        destruct Hin as [(H2 & _)|(_ & H2 & _)]; lra. }
    assert (Hx1 : (x < b1)%Q).
    { destruct (Qlt_bool (4 * 2) (b1 - b0)) eqn:Ew.
      - apply Qlt_bool_iff in Ew. injection Hreg as <- <-. lra.
      - injection Hreg as <- <-. lra. }
    rewrite (Hfirst b1 Hf eq_refl Hx1), Hno. reflexivity.
Qed.

Lemma frets24_increasing : increasing frets24.
Proof. apply increasingb_sound. vm_compute. reflexivity. Qed.

Lemma fret_regions_witness :
  (openEdge frets24 < px (mkPoint 1050 50))%Q /\ increasing frets24
  /\ pickHit fourLines frets24 24 (mkPoint 1050 50) = None.
Proof.
  assert (H1 : (openEdge frets24 < px (mkPoint 1050 50))%Q) by reflexivity.
  split; [exact H1|]. split; [exact frets24_increasing|].
  refine (proj2 (proj1 (proj2 (proj2
            (fret_regions fourLines frets24 24 (mkPoint 1050 50) H1 frets24_increasing)))
            12 _ _ _ eq_refl eq_refl _) _).
  - lia.
  - reflexivity.
  - reflexivity.
Defined.

(** On a board laid out by [fretXs] the first boundary is the nut, so the
    start of fret 1's region (at most 14) lies inside the open-string
    zone (at least 28 wide): no point is right of the zone and left of
    that start. *)
Lemma fret1_start_in_open_zone (xs : list Q) (b0 b1 x0 x1 : Q) :
  xs !! 0 = Some b0 -> (b0 == nutWidth)%Q ->
  xs !! 1 = Some b1 -> (b0 <= b1)%Q ->
  fretRegion xs 1 = Some (x0, x1) ->
  (x0 < openEdge xs)%Q.
Proof.
  intros H0 Hnut H1 Hle Hreg.
  assert (Hgrace : (0 <= openGrace xs)%Q).
  { unfold openGrace, firstFretX. rewrite H1. apply Q.min_glb; [discriminate|].
    unfold nutWidth in *. lra. }
  unfold openEdge, nutWidth, openPad in *.
  unfold fretRegion in Hreg. cbn [Nat.sub] in Hreg. rewrite H0, H1, pad_eq in Hreg.
  destruct (Qlt_bool (4 * 2) (b1 - b0)); injection Hreg as <- <-; lra.
Qed.

(** * Further properties of the code *)

(** ** The staff view *)

Lemma residue_cases (midi : Z) :
  (0 <= midi)%Z ->
  Z.rem midi 12 = (midi mod 12)%Z
  /\ ((midi mod 12 = 0 \/ midi mod 12 = 1 \/ midi mod 12 = 2 \/ midi mod 12 = 3
       \/ midi mod 12 = 4 \/ midi mod 12 = 5 \/ midi mod 12 = 6 \/ midi mod 12 = 7
       \/ midi mod 12 = 8 \/ midi mod 12 = 9 \/ midi mod 12 = 10
       \/ midi mod 12 = 11)%Z).
Proof.
  intros H. split; [apply Z.rem_mod_nonneg; lia|].
  pose proof (Z.mod_pos_bound midi 12 ltac:(lia)). lia.
Qed.

(** X1: for a pitch [midi >= 0], [midiToVexKey] returns a key whose
    letter, accidental (none or a sharp, never a flat) and octave spell
    the very name [midiToNameOctave] prints: the staff view and the text
    view name the same note. *)
Theorem midiToVexKey_agrees_with_name (midi : Z) :
  (0 <= midi)%Z ->
  exists k,
    midiToVexKey midi = Some k
    /\ oct k = (midi / 12 - 1)%Z
    /\ (acc k = ""%string \/ acc k = "#"%string)
    /\ midiToNameOctave midi = (capital (key k) ++ acc k ++ showInt (oct k))%string.
Proof.
  intros Hpos. destruct (residue_cases midi Hpos) as [Hrem Hcases].
  unfold midiToVexKey, midiToNameOctave. rewrite floor_midi_div, Hrem.
  repeat (destruct Hcases as [Hc|Hcases]);
    try rewrite Hc; try rewrite Hcases;
    (eexists; split; [reflexivity|]; split; [reflexivity|];
     split; [simpl; auto|reflexivity]).
Qed.

Lemma midiToVexKey_agrees_with_name_witness :
  (0 <= 61)%Z
  /\ exists k, midiToVexKey 61 = Some k
               /\ midiToNameOctave 61 = (capital (key k) ++ acc k ++ showInt (oct k))%string.
Proof.
  split; [lia|].
  destruct (midiToVexKey_agrees_with_name 61 ltac:(lia)) as (k & H1 & _ & _ & H2).
  exists k. auto.
Defined.

(** X2: [midiToVexKey] throws exactly on a negative pitch that is not a
    multiple of 12 (the remainder is negative and the table has no such
    entry); on every other pitch it returns a key. *)
Theorem midiToVexKey_throws_iff (midi : Z) :
  midiToVexKey midi = None <-> (midi < 0 /\ midi mod 12 <> 0)%Z.
Proof.
  unfold midiToVexKey.
  destruct (Z.lt_ge_cases midi 0) as [Hneg|Hpos].
  - pose proof (Z.rem_bound_pos_neg midi 12 ltac:(lia) ltac:(lia)) as Hb.
    assert (Hz : Z.rem midi 12 = 0%Z <-> (midi mod 12 = 0)%Z).
    { rewrite Z.rem_divide by lia. rewrite Z.mod_divide by lia. reflexivity. }
    destruct (Z.eq_dec (Z.rem midi 12) 0%Z) as [E|E].
    + rewrite E. simpl. split; [discriminate|]. intros [_ Hm]. tauto.
    + assert (Hv : vexMap (Z.rem midi 12) = None).
      { destruct (Z.rem midi 12) as [|q|q]; [congruence|lia|reflexivity]. }
      rewrite Hv. split; [|reflexivity]. intros _. split; [exact Hneg|tauto].
  - destruct (residue_cases midi Hpos) as [Hrem Hcases]. rewrite Hrem.
    split; [|lia].
    repeat (destruct Hcases as [Hc|Hcases]);
      try rewrite Hc; try rewrite Hcases; discriminate.
Qed.

(** X3: for a pitch [midi >= 0], [StaffNote] draws the key of the pitch
    one octave above its sounding octave (same letter, same accidental),
    with the stem down exactly from pitch 40 on. *)
Theorem staffNote_octave_up (midi : Z) :
  (0 <= midi)%Z ->
  exists k,
    midiToVexKey midi = Some k
    /\ staffNote midi =
       Some (mkStaffDrawing
               (key k ++ "/" ++ showInt (oct k + 1))%string
               (if String.eqb (acc k) "" then None else Some (acc k))
               (if (40 <=? midi)%Z then (-1)%Z else 1%Z)).
Proof.
  intros Hpos.
  destruct (residue_cases midi Hpos) as [Hrem Hcases].
  destruct (residue_cases (midi + 12) ltac:(lia)) as [Hrem' _].
  assert (Hmod : ((midi + 12) mod 12 = midi mod 12)%Z).
  { replace (midi + 12)%Z with (midi + 1 * 12)%Z by lia. apply Z_mod_plus_full. }
  assert (Hdiv : ((midi + 12) / 12 = midi / 12 + 1)%Z).
  { replace (midi + 12)%Z with (midi + 1 * 12)%Z by lia. apply Z.div_add. lia. }
  assert (Hstem : (52 <=? midi + 12)%Z = (40 <=? midi)%Z).
  { destruct (Z.leb_spec 52 (midi + 12)), (Z.leb_spec 40 midi); auto; lia. }
  unfold staffNote, midiToVexKey.
  rewrite !floor_midi_div, Hrem, Hrem', Hmod, Hdiv, Hstem.
  destruct (vexMap (midi mod 12)) as [[kk aa]|] eqn:E.
  - eexists. split; [reflexivity|]. cbn [key oct acc].
    replace (midi / 12 + 1 - 1)%Z with (midi / 12 - 1 + 1)%Z by lia. reflexivity.
  - exfalso. repeat (destruct Hcases as [Hc|Hcases]);
      try rewrite Hc in E; try rewrite Hcases in E; discriminate.
Qed.

Lemma staffNote_octave_up_witness :
  (0 <= 40)%Z
  /\ staffNote 40 = Some (mkStaffDrawing "e/3" None (-1)).
Proof.
  split; [lia|].
  destruct (staffNote_octave_up 40 ltac:(lia)) as (k & H1 & H2).
  injection H1 as <-. exact H2.
Defined.

(** ** Inlays *)

Lemma lookup_map {A B : Type} (f : A -> B) (l : list A) (i : nat) :
  map f l !! i = f <$> (l !! i).
Proof.
  revert i. induction l as [|a l IH]; intros [|i]; simpl; auto.
Qed.

Lemma fretXs_length (pow2 : nat -> Q) (frets : nat) (xs : list Q) :
  fretXs pow2 frets = Some xs -> length xs = S frets.
Proof.
  unfold fretXs. destruct (existsb _ _); [discriminate|].
  destruct (Qeq_bool _ 0); [discriminate|]. intros [= <-].
  cbn [length]. rewrite !length_map, length_seq. reflexivity.
Qed.

Lemma StronglySorted_filter {A : Type} (R : A -> A -> Prop) (f : A -> bool)
    (l : list A) :
  StronglySorted R l -> StronglySorted R (List.filter f l).
Proof.
  induction 1 as [|a l Hs IH Hall]; simpl; [constructor|].
  destruct (f a); [|exact IH]. constructor; [exact IH|].
  apply List.Forall_forall. intros x Hx. apply List.filter_In in Hx.
  rewrite List.Forall_forall in Hall. apply Hall. tauto.
Qed.

Lemma inlayFrets_filter (frets : nat) :
  inlayFrets frets = List.filter (fun n => n <=? frets) markerFrets.
Proof.
  unfold inlayFrets.
  destruct (Nat.leb_spec 21 frets) as [H21|H21];
    destruct (Nat.leb_spec 24 frets) as [H24|H24]; try lia.
  - reflexivity.
  - change markerFrets with (([3; 5; 7; 9; 12; 15; 17; 19] ++ [21]) ++ [24]).
    rewrite (List.filter_app _ _ [24]). cbn [List.filter].
    destruct (Nat.leb_spec 24 frets); [lia|]. rewrite app_nil_r. reflexivity.
  - change markerFrets with ([3; 5; 7; 9; 12; 15; 17; 19] ++ [21; 24]).
    rewrite (List.filter_app _ _ [21; 24]). cbn [List.filter].
    destruct (Nat.leb_spec 21 frets); [lia|].
    destruct (Nat.leb_spec 24 frets); [lia|]. rewrite app_nil_r. reflexivity.
Qed.

(** X4: [inlayFrets] holds exactly the marker frets (3, 5, 7, 9, 12, 15,
    17, 19, 21, 24) that are at most the fret count, in ascending order
    without repeats; so each inlay [n] lies between two boundaries
    [fretXs[n - 1]] and [fretXs[n]] that exist (on a board whose
    boundaries are numbers). *)
Theorem inlayFrets_spec (pow2 : nat -> Q) (frets n : nat) :
  (n ∈ inlayFrets frets <-> n ∈ markerFrets /\ n <= frets)
  /\ StronglySorted lt (inlayFrets frets)
  /\ (forall xs, fretXs pow2 frets = Some xs -> n ∈ inlayFrets frets ->
      is_Some (xs !! (n - 1)) /\ is_Some (xs !! n)).
Proof.
  assert (Hmem : n ∈ inlayFrets frets <-> n ∈ markerFrets /\ n <= frets).
  { rewrite inlayFrets_filter, !list_elem_of_In, List.filter_In, Nat.leb_le.
    reflexivity. }
  split; [exact Hmem|]. split.
  - rewrite inlayFrets_filter. apply StronglySorted_filter.
    unfold markerFrets. repeat constructor.
  - intros xs Hxs Hin. apply Hmem in Hin. destruct Hin as [_ Hle].
    split; apply lookup_lt_is_Some; rewrite (fretXs_length pow2 frets xs Hxs); lia.
Qed.

(** ** The targetable notes form a range *)

Lemma set_add_seqZ_in (lo n x : Z) :
  (lo <= x < lo + n)%Z -> set_add (seqZ lo n) x = seqZ lo n.
Proof.
  intros Hx. unfold set_add.
  assert (E : existsb (Z.eqb x) (seqZ lo n) = true); [|rewrite E; reflexivity].
  apply existsb_exists. exists x. split; [|apply Z.eqb_refl].
  apply list_elem_of_In, elem_of_seqZ. lia.
Qed.

Lemma set_add_seqZ_next (lo n : Z) :
  (0 <= n)%Z -> set_add (seqZ lo n) (lo + n)%Z = seqZ lo (n + 1).
Proof.
  intros Hn. unfold set_add.
  destruct (existsb (Z.eqb (lo + n)) (seqZ lo n)) eqn:E.
  - apply existsb_exists in E. destruct E as (y & Hy & Hxy).
    apply Z.eqb_eq in Hxy. subst y.
    apply list_elem_of_In, elem_of_seqZ in Hy. lia.
  - rewrite seqZ_app by lia. reflexivity.
Qed.

(** Adding frets [0..k-1] of a string whose open pitch is inside or just
    above a range of notes extends the range upwards. *)
Lemma addFrets_range (lo n open : Z) (k : nat) :
  (0 <= n)%Z -> (lo <= open <= lo + n)%Z ->
  fold_left (fun s f => set_add s (open + Z.of_nat f)%Z) (seq 0 k) (seqZ lo n)
  = seqZ lo (Z.max n (open + Z.of_nat k - lo)).
Proof.
  intros Hn Ho. induction k as [|k IH].
  - simpl. rewrite Z.max_l by lia. reflexivity.
  - rewrite seq_S, fold_left_app, IH. cbn [fold_left Nat.add].
    destruct (Z.le_gt_cases (open + Z.of_nat k - lo + 1) n) as [Hin|Hout].
    + rewrite !Z.max_l by lia. apply set_add_seqZ_in. lia.
    + rewrite Z.max_r by lia. rewrite (Z.max_r n) by lia.
      remember (open + Z.of_nat k - lo)%Z as m eqn:Em.
      replace (open + Z.of_nat k)%Z with (lo + m)%Z by lia.
      rewrite set_add_seqZ_next by lia. f_equal. lia.
Qed.

Lemma addString_range (frets : nat) (lo n open m : Z) :
  (0 <= n)%Z -> (lo <= open <= lo + n)%Z ->
  (n <= m)%Z -> m = (open + Z.of_nat frets + 1 - lo)%Z ->
  addString frets (seqZ lo n) open = seqZ lo m.
Proof.
  intros Hn Ho Hm ->. unfold addString. rewrite addFrets_range by assumption.
  f_equal. lia.
Qed.

(** The lowest open string. *)
Lemma lowest_open (sc : StringCount) :
  OPEN_MIDIS sc !! 0 = Some (match sc with SC4 => 28 | _ => 23 end)%Z.
Proof. destruct sc; reflexivity. Qed.

(** X5: with at least four frets, [possibleMidis] is every semitone from
    the lowest open string up to the last fret of the highest string, in
    ascending order: [5 * (strings - 1) + frets + 1] notes. *)
Theorem possibleMidis_range (sc : StringCount) (frets : nat) :
  4 <= frets ->
  possibleMidis sc frets
  = seqZ (match sc with SC4 => 28 | _ => 23 end)
         (5 * (Z.of_nat (stringCountNum sc) - 1) + Z.of_nat frets + 1)
  /\ length (possibleMidis sc frets) = 5 * (stringCountNum sc - 1) + frets + 1.
Proof.
  intros Hf.
  assert (Heq : possibleMidis sc frets
                = seqZ (match sc with SC4 => 28 | _ => 23 end)
                       (5 * (Z.of_nat (stringCountNum sc) - 1) + Z.of_nat frets + 1)).
  { unfold possibleMidis. destruct sc; cbn [stringCountNum OPEN_MIDIS take fold_left].
    - change (@nil Z) with (seqZ 28 0).
      rewrite (addString_range frets 28 0 28 (Z.of_nat frets + 1)) by lia.
      rewrite (addString_range frets 28 _ 33 (Z.of_nat frets + 6)) by lia.
      rewrite (addString_range frets 28 _ 38 (Z.of_nat frets + 11)) by lia.
      rewrite (addString_range frets 28 _ 43 (Z.of_nat frets + 16)) by lia.
      f_equal. simpl. lia.
    - change (@nil Z) with (seqZ 23 0).
      rewrite (addString_range frets 23 0 23 (Z.of_nat frets + 1)) by lia.
      rewrite (addString_range frets 23 _ 28 (Z.of_nat frets + 6)) by lia.
      rewrite (addString_range frets 23 _ 33 (Z.of_nat frets + 11)) by lia.
      rewrite (addString_range frets 23 _ 38 (Z.of_nat frets + 16)) by lia.
      rewrite (addString_range frets 23 _ 43 (Z.of_nat frets + 21)) by lia.
      f_equal. simpl. lia.
    - change (@nil Z) with (seqZ 23 0).
      rewrite (addString_range frets 23 0 23 (Z.of_nat frets + 1)) by lia.
      rewrite (addString_range frets 23 _ 28 (Z.of_nat frets + 6)) by lia.
      rewrite (addString_range frets 23 _ 33 (Z.of_nat frets + 11)) by lia.
      rewrite (addString_range frets 23 _ 38 (Z.of_nat frets + 16)) by lia.
      rewrite (addString_range frets 23 _ 43 (Z.of_nat frets + 21)) by lia.
      rewrite (addString_range frets 23 _ 48 (Z.of_nat frets + 26)) by lia.
      f_equal. simpl. lia. }
  split; [exact Heq|]. rewrite Heq, length_seqZ. destruct sc; simpl; lia.
Qed.

Lemma possibleMidis_range_witness :
  4 <= 21 /\ possibleMidis SC4 21 = seqZ 28 37.
Proof.
  split; [lia|]. exact (proj1 (possibleMidis_range SC4 21 ltac:(lia))).
Defined.

(** ** An advance always finds a target *)

Lemma possibleMidis_lowest (sc : StringCount) (frets : nat) :
  (match sc with SC4 => 28 | _ => 23 end)%Z ∈ possibleMidis sc frets.
Proof.
  apply possibleMidis_elem. exists (mkTarget 0 0). simpl.
  split; [destruct sc; simpl; lia|]. split; [lia|].
  unfold hitMidi. simpl. rewrite lowest_open. destruct sc; reflexivity.
Qed.

Lemma perm_head_elem (d l : list Z) (x : Z) :
  d ≡ₚ l -> x ∈ l -> exists y, head d = Some y /\ y ∈ l.
Proof.
  intros Hp Hx. destruct d as [|y d'].
  - symmetry in Hp. apply Permutation_nil_r in Hp. subst l. inversion Hx.
  - exists y. split; [reflexivity|]. rewrite <- Hp. left.
Qed.

(** X6: whatever the session, [nextTarget] sets a target (never [null]),
    and one of the targetable notes, as long as the deck holds only such
    notes; in particular after a change of configuration, where it also
    leaves all the other targetable notes in the deck. *)
Theorem nextTarget_always_targets (random : nat -> Q) (c : Config) (s : Session) :
  unitDraws random ->
  let reach := possibleMidis (stringCount c) (frets c) in
  ((forall x, x ∈ deck s -> x ∈ reach) ->
   exists m, currentMidi (nextTarget random c s) = Some m /\ m ∈ reach)
  /\ currentMidi (configure random c s) = None
  /\ exists m rest,
       currentMidi (nextTarget random c (configure random c s)) = Some m
       /\ deck (nextTarget random c (configure random c s)) = rest
       /\ m :: rest ≡ₚ reach.
Proof.
  intros Hu reach.
  pose proof (possibleMidis_lowest (stringCount c) (frets c)) as Hlow.
  fold reach in Hlow. split; [|split].
  - intros Hin. destruct (deck s) as [|y d] eqn:E.
    + destruct (nextTarget_refill random c s E) as [Hc _]. fold reach in Hc.
      rewrite Hc. eapply perm_head_elem; [|exact Hlow].
      apply shuffle_perm, Hu.
    + destruct (nextTarget_draw random c s y d E) as (Hc & _ & _).
      exists y. split; [exact Hc|]. apply Hin. left.
  - unfold configure. destruct (shuffle _ _ _). reflexivity.
  - pose proof (shuffle_perm random reach (draws s) Hu) as Hp.
    assert (Hd : deck (configure random c s) = fst (shuffle random reach (draws s))).
    { unfold configure. fold reach. destruct (shuffle random reach (draws s)).
      reflexivity. }
    destruct (perm_head_elem _ _ _ Hp Hlow) as (y & Hy & _).
    destruct (fst (shuffle random reach (draws s))) as [|y' d'] eqn:E;
      [discriminate|]. injection Hy as ->.
    destruct (nextTarget_draw random c (configure random c s) y d' Hd)
      as (Hc & Hk & _).
    exists y, d'. split; [exact Hc|]. split; [exact Hk|exact Hp].
Qed.

Lemma nextTarget_always_targets_witness :
  unitDraws halves
  /\ exists m, currentMidi (nextTarget halves fourStrings initialSession) = Some m
               /\ m ∈ possibleMidis SC4 21.
Proof.
  split; [exact halves_unitDraws|].
  refine (proj1 (nextTarget_always_targets halves fourStrings initialSession
                                           halves_unitDraws) _).
  intros x Hx. inversion Hx.
Defined.

(** ** The layout of the string lines *)

Lemma natQ_le (n m : nat) : n <= m -> (natQ n <= natQ m)%Q.
Proof. intros H. unfold natQ. rewrite <- Zle_Qle. lia. Qed.

Lemma natQ_succ (n : nat) : (natQ (S n) == natQ n + 1)%Q.
Proof.
  unfold natQ. rewrite Nat2Z.inj_succ. unfold Z.succ.
  rewrite inject_Z_plus. reflexivity.
Qed.

Lemma stringYs_lookup (stringCount : nat) (binding : bool) (i : nat) :
  i < stringCount ->
  stringYs stringCount binding !! i
  = Some (boardTopY binding + paddingY
          + ((boardHeight stringCount - paddingY * 2) * natQ (stringCount - 1 - i))
            / natQ (orOne (stringCount - 1)))%Q.
Proof.
  intros Hi. unfold stringYs. rewrite lookup_map, lookup_seq_lt by lia.
  reflexivity.
Qed.

(** With two strings or more the lines are evenly spaced, by more than
    [heightPerString]: line [i] is [step * (stringCount - 1 - i)] below
    the top line. *)
Lemma stringYs_affine (stringCount : nat) (binding : bool) :
  2 <= stringCount ->
  exists step,
    (44 < step)%Q
    /\ (step * natQ (stringCount - 1) == natQ stringCount * 44)%Q
    /\ forall i, i < stringCount ->
         exists y, stringYs stringCount binding !! i = Some y
                   /\ (y == boardTopY binding + paddingY
                            + step * natQ (stringCount - 1 - i))%Q.
Proof.
  intros Hn. destruct stringCount as [|[|k]]; [lia|lia|].
  set (n := S (S k)) in *.
  assert (Hor : orOne (n - 1) = n - 1) by reflexivity.
  assert (HD : (1 <= natQ (n - 1))%Q).
  { change 1%Q with (natQ 1). apply natQ_le. unfold n. lia. }
  assert (Hn1 : (natQ n == natQ (n - 1) + 1)%Q).
  { unfold n. replace (S (S k) - 1) with (S k) by lia. apply natQ_succ. }
  exists (natQ n * 44 / natQ (n - 1))%Q.
  assert (Hstep : (natQ n * 44 / natQ (n - 1) * natQ (n - 1) == natQ n * 44)%Q)
    by (field; lra).
  split; [|split; [exact Hstep|]].
  - set (step := (natQ n * 44 / natQ (n - 1))%Q) in *.
    set (D := natQ (n - 1)) in *. nra.
  - intros i Hi. rewrite stringYs_lookup by exact Hi. rewrite Hor.
    eexists. split; [reflexivity|].
    unfold boardHeight, heightPerString, paddingY. field. lra.
Qed.

Lemma stringYs_spaced (stringCount : nat) (binding : bool) (i j : nat) (yi yj : Q) :
  2 <= stringCount -> i < j ->
  stringYs stringCount binding !! i = Some yi ->
  stringYs stringCount binding !! j = Some yj ->
  (yj + 44 < yi)%Q.
Proof.
  intros Hn Hij Hi Hj.
  assert (Hjn : j < stringCount).
  { apply lookup_lt_Some in Hj. rewrite stringYs_length in Hj. exact Hj. }
  destruct (stringYs_affine stringCount binding Hn) as (step & Hstep & _ & Hy).
  destruct (Hy i ltac:(lia)) as (y & Hy1 & Hy2). rewrite Hi in Hy1.
  injection Hy1 as <-.
  destruct (Hy j Hjn) as (y' & Hy1' & Hy2'). rewrite Hj in Hy1'.
  injection Hy1' as <-.
  assert (Hk : (natQ (stringCount - 1 - j) + 1 <= natQ (stringCount - 1 - i))%Q).
  { rewrite <- natQ_succ. apply natQ_le. lia. }
  assert (0 <= step * (natQ (stringCount - 1 - i)
                       - natQ (stringCount - 1 - j) - 1))%Q
    by (apply Qmult_le_0_compat; lra).
  lra.
Qed.

(** X8: with two strings or more, every string line lies between the
    top and the bottom padding of the board; line 0 is the bottom one and
    the last line the top one; and each line is more than 44 px
    ([heightPerString]) above the lines of lower index. *)
Theorem stringYs_layout (stringCount : nat) (binding : bool) (i : nat) :
  2 <= stringCount -> i < stringCount ->
  exists y,
    stringYs stringCount binding !! i = Some y
    /\ (boardTopY binding + paddingY <= y)%Q
    /\ (y <= boardTopY binding + boardHeight stringCount - paddingY)%Q
    /\ (i = 0 -> (y == boardTopY binding + boardHeight stringCount - paddingY)%Q)
    /\ (i = stringCount - 1 -> (y == boardTopY binding + paddingY)%Q)
    /\ (forall j yj, i < j -> stringYs stringCount binding !! j = Some yj ->
                     (yj + 44 < y)%Q).
Proof.
  intros Hn Hi.
  destruct (stringYs_affine stringCount binding Hn) as (step & Hstep & Hfull & Hy).
  destruct (Hy i Hi) as (y & Hy1 & Hy2). exists y. split; [exact Hy1|].
  assert (Hk0 : (0 <= natQ (stringCount - 1 - i))%Q).
  { change 0%Q with (natQ 0). apply natQ_le. lia. }
  assert (Hk1 : (natQ (stringCount - 1 - i) <= natQ (stringCount - 1))%Q)
    by (apply natQ_le; lia).
  assert (Hlo : (0 <= step * natQ (stringCount - 1 - i))%Q)
    by (apply Qmult_le_0_compat; lra).
  assert (Hhi : (0 <= step * (natQ (stringCount - 1) - natQ (stringCount - 1 - i)))%Q)
    by (apply Qmult_le_0_compat; lra).
  unfold boardHeight, heightPerString, paddingY in *.
  split; [lra|]. split; [lra|]. split; [|split].
  - intros ->. replace (stringCount - 1 - 0) with (stringCount - 1) in Hy2 by lia.
    lra.
  - intros ->. replace (stringCount - 1 - (stringCount - 1)) with 0 in Hy2 by lia.
    change (natQ 0) with 0%Q in Hy2. lra.
  - intros j yj Hij Hj.
    exact (stringYs_spaced stringCount binding i j y yj Hn Hij Hy1 Hj).
Qed.

Lemma stringYs_layout_witness :
  2 <= 4 /\ 0 < 4
  /\ exists y, fourLines !! 0 = Some y /\ (y == 200)%Q.
Proof.
  assert (H1 : 2 <= 4) by lia. assert (H2 : 0 < 4) by lia.
  split; [exact H1|]. split; [exact H2|].
  destruct (stringYs_layout 4 false 0 H1 H2) as (y & Hy & _ & _ & Hb & _).
  exists y. split; [exact Hy|]. rewrite (Hb eq_refl). reflexivity.
Defined.

(** ** The nearest string, ties included *)

Lemma nearest_fold_first (y : Q) (ps : list (nat * Q)) :
  ps <> [] ->
  let r := fold_left (nearestStep y) ps (0, None) in
  exists i v,
    ps !! i = Some (fst r, v)
    /\ snd r = Some (Qabs (y - v))
    /\ (forall j p, ps !! j = Some p -> (Qabs (y - v) <= Qabs (y - snd p))%Q)
    /\ (forall j p, j < i -> ps !! j = Some p ->
                    (Qabs (y - v) < Qabs (y - snd p))%Q).
Proof.
  induction ps as [|p ps IH] using rev_ind; [congruence|]. intros _.
  cbv zeta. rewrite fold_left_app. cbn [fold_left].
  destruct (decide (ps = [])) as [->|Hne].
  - cbn [fold_left app]. unfold nearestStep. cbn [fst snd].
    exists 0, (snd p). split; [destruct p; reflexivity|]. split; [reflexivity|].
    split.
    + intros [|j] p' Hp'; [|discriminate]. injection Hp' as <-. apply Qle_refl.
    + intros j p' Hj. lia.
  - destruct (IH Hne) as (i & v & Hi & Hmin & Hall & Hfirst). clear IH.
    assert (Hil : i < length ps) by (eapply lookup_lt_Some, Hi).
    set (r := fold_left (nearestStep y) ps (0, None)) in *.
    unfold nearestStep. rewrite Hmin.
    destruct (Qlt_bool (Qabs (y - snd p)) (Qabs (y - v))) eqn:Elt.
    + apply Qlt_bool_iff in Elt. cbn [fst snd]. exists (length ps), (snd p).
      split; [rewrite list_lookup_middle by reflexivity; destruct p; reflexivity|].
      split; [reflexivity|]. split.
      * intros j p' Hp'. apply lookup_app_Some in Hp'.
        destruct Hp' as [Hp'|[_ Hp']].
        -- apply Qlt_le_weak. eapply Qlt_le_trans; [exact Elt|exact (Hall j p' Hp')].
        -- destruct (j - length ps) as [|m]; [|discriminate].
           injection Hp' as <-. apply Qle_refl.
      * intros j p' Hj Hp'. rewrite lookup_app_l in Hp' by exact Hj.
        eapply Qlt_le_trans; [exact Elt|exact (Hall j p' Hp')].
    + apply Qlt_bool_false in Elt. exists i, v.
      split; [rewrite lookup_app_l by exact Hil; exact Hi|].
      split; [exact Hmin|]. split.
      * intros j p' Hp'. apply lookup_app_Some in Hp'.
        destruct Hp' as [Hp'|[_ Hp']]; [exact (Hall j p' Hp')|].
        destruct (j - length ps) as [|m]; [|discriminate].
        injection Hp' as <-. exact Elt.
      * intros j p' Hj Hp'. rewrite lookup_app_l in Hp' by lia.
        exact (Hfirst j p' Hj Hp').
Qed.

(** X9: on a board with a string, [pickHit] assigns a point to a string
    line of least distance in y, and among several such lines to the one
    of lowest index: every line before it is strictly farther. *)
Theorem nearestString_lowest_of_nearest (ys : list Q) (y : Q) :
  ys <> [] ->
  exists v,
    ys !! nearestString ys y = Some v
    /\ (forall j w, ys !! j = Some w -> (Qabs (y - v) <= Qabs (y - w))%Q)
    /\ (forall j w, j < nearestString ys y -> ys !! j = Some w ->
                    (Qabs (y - v) < Qabs (y - w))%Q).
Proof.
  intros Hne. unfold nearestString.
  destruct (nearest_fold_first y (imap (fun i v => (i, v)) ys))
    as (i & v & Hi & _ & Hall & Hfirst).
  { destruct ys; [congruence|discriminate]. }
  rewrite list_lookup_imap in Hi.
  destruct (ys !! i) as [w|] eqn:Ei; [|discriminate].
  injection Hi as Hidx Hv. subst w. rewrite <- Hidx.
  exists v. split; [exact Ei|]. split.
  - intros j w Hj. apply (Hall j (j, w)).
    rewrite list_lookup_imap, Hj. reflexivity.
  - intros j w Hlt Hj. apply (Hfirst j (j, w)); [exact Hlt|].
    rewrite list_lookup_imap, Hj. reflexivity.
Qed.

Lemma nearestString_lowest_of_nearest_witness :
  [10; 30; 50]%Q <> []
  /\ nearestString [10; 30; 50]%Q 20 = 0
  /\ exists v, [10; 30; 50]%Q !! nearestString [10; 30; 50]%Q 20 = Some v.
Proof.
  assert (H : [10; 30; 50]%Q <> []) by discriminate.
  split; [exact H|]. split; [reflexivity|].
  destruct (nearestString_lowest_of_nearest [10; 30; 50]%Q 20 H) as (v & Hv & _).
  exists v. exact Hv.
Defined.

(** A point within half of [heightPerString] of string line [i] is
    assigned to string [i]. *)
Lemma nearestString_near_line (stringCount : nat) (binding : bool) (i : nat)
    (yi y : Q) :
  2 <= stringCount ->
  stringYs stringCount binding !! i = Some yi ->
  (Qabs (y - yi) <= 22)%Q ->
  nearestString (stringYs stringCount binding) y = i.
Proof.
  intros Hn Hi Hnear.
  destruct (nearestString_spec (stringYs stringCount binding) y) as (v & Hv & Hmin).
  { intros E. rewrite E in Hi. discriminate. }
  set (k := nearestString (stringYs stringCount binding) y) in *.
  pose proof (Hmin i yi Hi) as Hle.
  apply Qabs_Qle_condition in Hnear.
  assert (Hv22 : (Qabs (y - v) <= 22)%Q).
  { eapply Qle_trans; [exact Hle|]. apply Qabs_Qle_condition. exact Hnear. }
  apply Qabs_Qle_condition in Hv22.
  destruct (Nat.lt_trichotomy k i) as [Hlt|[Heq|Hgt]]; [|exact Heq|].
  - pose proof (stringYs_spaced stringCount binding k i v yi Hn Hlt Hv Hi). lra.
  - pose proof (stringYs_spaced stringCount binding i k yi v Hn Hgt Hi Hv). lra.
Qed.

(** ** Presses outside and inside the cells *)

(** The regions of an increasing board do not overlap: a point beyond
    the open zone that lies in region [n] is a hit of fret [n]. *)
Lemma pickHit_in_region (ys xs : list Q) (frets n : nat) (x y : Q) :
  increasing xs -> 1 <= n <= frets ->
  (openEdge xs < x)%Q -> inFret xs x n = true ->
  pickHit ys xs frets (mkPoint x y) = Some (mkTarget (nearestString ys y) n).
Proof.
  intros Hinc Hn Hopen Hin. rewrite pickHit_beyond by exact Hopen. cbn [px py].
  assert (Hs : scanFrets xs x 1 frets = Some n); [|rewrite Hs; reflexivity].
  apply scanFrets_Some. split; [lia|]. split; [exact Hin|].
  intros k Hk. apply inFret_spec in Hin.
  destruct Hin as (x0 & x1 & H0 & _ & Hx).
  apply (inFret_after xs x x0 (n - 1) k Hinc H0); [|lia].
  destruct Hx as [(_ & Hx & _)|(_ & Hx & _)]; lra.
Qed.

(** X10: a press at or right of the last fret boundary of an increasing
    board (and right of the open zone) hits nothing: the hover cell and
    the whole session stay as they are, no outcome is produced and the
    debounce time stamp is not touched; a move there clears the hover. *)
Theorem press_beyond_last_fret (c : Config) (ys xs : list Q)
    (portrait : option (Q * Q)) (flipBoth : bool) (nowTs : Q) (sp : DOMPoint)
    (st : option Target * Session) (b : Q) :
  increasing xs ->
  xs !! frets c = Some b ->
  let p := pointerPoint (stringCountNum (stringCount c)) portrait flipBoth sp in
  (openEdge xs < px p)%Q ->
  (b <= px p)%Q ->
  pickHit ys xs (frets c) p = None
  /\ handlePointerDown c ys xs portrait flipBoth nowTs sp st = (st, None)
  /\ handlePointerMove c ys xs portrait flipBoth sp st = (None, snd st).
Proof.
  intros Hinc Hb p Hopen Hx.
  assert (Hnone : pickHit ys xs (frets c) p = None).
  { rewrite pickHit_beyond by exact Hopen.
    assert (Hs : scanFrets xs (px p) 1 (frets c) = None); [|rewrite Hs; reflexivity].
    apply scanFrets_None. intros k Hk.
    apply (inFret_after xs (px p) b (frets c) k Hinc Hb Hx). lia. }
  split; [exact Hnone|]. unfold handlePointerDown, handlePointerMove.
  fold p. rewrite Hnone. split; reflexivity.
Qed.

Lemma press_beyond_last_fret_witness :
  increasing frets24
  /\ (exists b, frets24 !! 24 = Some b /\ (b <= 1580)%Q)
  /\ handlePointerDown (mkConfig SC4 24 true) fourLines frets24 None false 100
                       (mkPoint 1580 50) (None, asking 40)
     = ((None, asking 40), None).
Proof.
  split; [exact frets24_increasing|].
  eassert (Hb : frets24 !! 24 = Some ?[b]) by (vm_compute; reflexivity).
  split; [eexists; split; [exact Hb|vm_compute; discriminate]|].
  refine (proj1 (proj2 (press_beyond_last_fret (mkConfig SC4 24 true) fourLines frets24
            None false 100 (mkPoint 1580 50) (None, asking 40) _
            frets24_increasing Hb _ _))).
  - reflexivity.
  - vm_compute. discriminate.
Defined.

(** ** The hover highlight shows where a press registers *)

Lemma hover_band (yi y : Q) :
  (yi - heightPerString * (9 # 10) / 2 <= y)%Q ->
  (y <= yi - heightPerString * (9 # 10) / 2 + heightPerString * (9 # 10))%Q ->
  (Qabs (y - yi) <= 22)%Q.
Proof.
  unfold heightPerString. intros H1 H2. apply Qabs_Qle_condition.
  assert (E : (44 * (9 # 10) / 2 == 198 # 10)%Q) by reflexivity.
  lra.
Qed.

(** X11: the highlight of a fret cell covers only points that hit the
    cell.  On a board of two strings or more with increasing boundaries,
    for fret [n >= 1] whose clickable region [[r0, r1)] reaches at least
    2 px beyond both its start and the open zone (and starts right of the
    open zone unless [n = 1]), the rectangle spans from the larger of
    [r0] and the open-zone edge to [r1], and every point strictly inside
    it is a hit of exactly the hovered string and fret. *)
Theorem hover_rect_is_clickable (stringCount : nat) (binding : bool)
    (xs : list Q) (frets i n : nat) (r0 r1 : Q) :
  2 <= stringCount -> increasing xs ->
  i < stringCount -> 1 <= n <= frets ->
  fretRegion xs n = Some (r0, r1) ->
  (Qmax r0 (openEdge xs) + 2 <= r1)%Q ->
  n = 1 \/ (openEdge xs <= r0)%Q ->
  exists R,
    hoverRect (stringYs stringCount binding) xs (mkTarget i n) = Some R
    /\ (rx R == Qmax r0 (openEdge xs))%Q
    /\ (rx R + rw R == r1)%Q
    /\ forall x y,
         (rx R < x)%Q -> (x < rx R + rw R)%Q ->
         (ry R <= y)%Q -> (y <= ry R + rh R)%Q ->
         pickHit (stringYs stringCount binding) xs frets (mkPoint x y)
         = Some (mkTarget i n).
Proof.
  intros Hsc Hinc Hi Hn Hreg Hwide Hopen.
  destruct (lookup_lt_is_Some_2 (stringYs stringCount binding) i) as [yi Hyi].
  { rewrite stringYs_length. exact Hi. }
  unfold hoverRect. cbn [stringIndex fret]. rewrite Hyi.
  destruct (Nat.eqb_spec n 0) as [?|_]; [lia|]. rewrite Hreg.
  set (edge := openEdge xs) in *.
  assert (Hhit : forall x0 w x y,
            (x0 == Qmax r0 edge)%Q -> (x0 + w == r1)%Q ->
            (x0 < x)%Q -> (x < x0 + w)%Q ->
            (yi - heightPerString * (9 # 10) / 2 <= y)%Q ->
            (y <= yi - heightPerString * (9 # 10) / 2 + heightPerString * (9 # 10))%Q ->
            pickHit (stringYs stringCount binding) xs frets (mkPoint x y)
            = Some (mkTarget i n)).
  { intros x0 w x y Hx0 Hw Hx1 Hx2 Hy1 Hy2.
    destruct (Q.max_spec r0 edge) as [[Hm1 Hm2]|[Hm1 Hm2]];
      (rewrite (pickHit_in_region _ xs frets n x y Hinc Hn);
       [rewrite (nearestString_near_line stringCount binding i yi y Hsc Hyi
                   (hover_band yi y Hy1 Hy2)); reflexivity
       |fold edge; lra
       |unfold inFret; rewrite Hreg; apply andb_true_iff;
        rewrite Qle_bool_iff, Qlt_bool_iff; lra]). }
  destruct (Q.max_spec r0 edge) as [[Hm1 Hm2]|[Hm1 Hm2]].
  - (* the open zone reaches into the region: only for fret 1 *)
    destruct Hopen as [->|Hopen]; [|lra]. cbn [Nat.eqb].
    assert (E : Qlt_bool r0 edge = true) by (apply Qlt_bool_iff; exact Hm1).
    rewrite E.
    destruct (Q.min_spec (r1 - 2) edge) as [[Hn1 Hn2]|[Hn1 Hn2]]; [lra|].
    destruct (Q.max_spec 2 (r1 - Qmin (r1 - 2) edge)) as [[Hw1 Hw2]|[Hw1 Hw2]].
    + eexists. split; [reflexivity|]. cbn [rx ry rw rh].
      split; [lra|]. split; [lra|].
      intros x y. apply Hhit; lra.
    + eexists. split; [reflexivity|]. cbn [rx ry rw rh].
      split; [lra|]. split; [lra|].
      intros x y. apply Hhit; lra.
  - assert (E : (if n =? 1
                 then if Qlt_bool r0 edge then Qmin (r1 - 2) edge else r0
                 else r0) = r0).
    { destruct (n =? 1); [|reflexivity].
      assert (E' : Qlt_bool r0 edge = false) by (apply Qlt_bool_false; exact Hm1).
      rewrite E'. reflexivity. }
    rewrite E.
    destruct (Q.max_spec 2 (r1 - r0)) as [[Hw1 Hw2]|[Hw1 Hw2]].
    + eexists. split; [reflexivity|]. cbn [rx ry rw rh].
      split; [lra|]. split; [lra|].
      intros x y. apply Hhit; lra.
    + eexists. split; [reflexivity|]. cbn [rx ry rw rh].
      split; [lra|]. split; [lra|].
      intros x y. apply Hhit; lra.
Qed.

Lemma hover_rect_is_clickable_witness :
  2 <= 4 /\ increasing frets24
  /\ pickHit fourLines frets24 24 (mkPoint 60 30) = Some (mkTarget 3 1).
Proof.
  assert (H1 : 2 <= 4) by lia.
  split; [exact H1|]. split; [exact frets24_increasing|].
  eassert (Hreg : fretRegion frets24 1 = Some (?[r0], ?[r1]))
    by (vm_compute; reflexivity).
  destruct (hover_rect_is_clickable 4 false frets24 24 3 1 _ _ H1 frets24_increasing
              ltac:(lia) ltac:(lia) Hreg
              ltac:(vm_compute; discriminate) (or_introl eq_refl))
    as (R & HR & _ & _ & Hhit).
  vm_compute in HR. injection HR as <-.
  apply Hhit; vm_compute; first [reflexivity|discriminate].
Defined.

(** X12: the highlight of an open-string cell spans from x = 0 to the
    edge of the open zone, and every point of it (its right edge
    included) is a hit of the open string of the hovered string line. *)
Theorem hover_open_rect_is_clickable (stringCount : nat) (binding : bool)
    (xs : list Q) (frets i : nat) :
  2 <= stringCount -> i < stringCount ->
  exists R,
    hoverRect (stringYs stringCount binding) xs (mkTarget i 0) = Some R
    /\ (rx R == 0)%Q
    /\ (rx R + rw R == openEdge xs)%Q
    /\ forall x y,
         (x <= rx R + rw R)%Q ->
         (ry R <= y)%Q -> (y <= ry R + rh R)%Q ->
         pickHit (stringYs stringCount binding) xs frets (mkPoint x y)
         = Some (mkTarget i 0).
Proof.
  intros Hsc Hi.
  destruct (lookup_lt_is_Some_2 (stringYs stringCount binding) i) as [yi Hyi].
  { rewrite stringYs_length. exact Hi. }
  unfold hoverRect. cbn [stringIndex fret Nat.eqb]. rewrite Hyi.
  eexists. split; [reflexivity|]. cbn [rx ry rw rh].
  split; [reflexivity|]. split; [ring|].
  intros x y Hx Hy1 Hy2. unfold pickHit. cbn [px py].
  assert (E : Qle_bool x (openEdge xs) = true) by (apply Qle_bool_iff; lra).
  rewrite E.
  rewrite (nearestString_near_line stringCount binding i yi y Hsc Hyi
             (hover_band yi y Hy1 Hy2)).
  reflexivity.
Qed.

Lemma hover_open_rect_is_clickable_witness :
  2 <= 4 /\ 3 < 4
  /\ pickHit fourLines frets24 24 (mkPoint 52 30) = Some (mkTarget 3 0).
Proof.
  assert (H1 : 2 <= 4) by lia. assert (H2 : 3 < 4) by lia.
  split; [exact H1|]. split; [exact H2|].
  destruct (hover_open_rect_is_clickable 4 false frets24 24 3 H1 H2)
    as (R & HR & _ & _ & Hhit).
  vm_compute in HR. injection HR as <-.
  apply Hhit; vm_compute; discriminate.
Defined.

(** ** The flipped board *)







(** ** Presses, targets and sound *)

(** X14: a press that hits a cell of a board with one line per string is
    always judged on a pitch that exists and is one of the targetable
    notes: [onHit] never sees NaN from [pickHit]. *)
Theorem pickHit_pitch_is_targetable (c : Config) (ys xs : list Q) (sp : DOMPoint)
    (hit : Target) :
  length ys = stringCountNum (stringCount c) ->
  pickHit ys xs (frets c) sp = Some hit ->
  exists m, hitMidi (stringCount c) hit = Some m
            /\ m ∈ possibleMidis (stringCount c) (frets c).
Proof.
  intros Hlen Hhit.
  assert (Hrange : stringIndex hit < stringCountNum (stringCount c)
                   /\ fret hit <= frets c).
  { assert (Hs : nearestString ys (py sp) < stringCountNum (stringCount c)).
    { rewrite <- Hlen. apply nearestString_lt. rewrite Hlen.
      destruct (stringCount c); simpl; lia. }
    unfold pickHit in Hhit. destruct (Qle_bool (px sp) (openEdge xs)).
    - injection Hhit as <-. simpl. split; [exact Hs|lia].
    - destruct (scanFrets xs (px sp) 1 (frets c)) as [n|] eqn:E; [|discriminate].
      injection Hhit as <-. apply scanFrets_Some in E. simpl. split; [exact Hs|lia]. }
  destruct Hrange as [Hs Hf].
  destruct (lookup_lt_is_Some_2 (OPEN_MIDIS (stringCount c)) (stringIndex hit))
    as [open Hopen].
  { destruct (stringCount c); simpl in *; lia. }
  exists (open + Z.of_nat (fret hit))%Z. split.
  - unfold hitMidi. rewrite Hopen. reflexivity.
  - apply possibleMidis_elem. exists hit. split; [exact Hs|]. split; [exact Hf|].
    unfold hitMidi. rewrite Hopen. reflexivity.
Qed.

Lemma pickHit_pitch_is_targetable_witness :
  length fourLines = stringCountNum (stringCount (mkConfig SC4 24 true))
  /\ pickHit fourLines frets24 24 (mkPoint 1045 50) = Some (mkTarget 3 12)
  /\ exists m, hitMidi SC4 (mkTarget 3 12) = Some m /\ m ∈ possibleMidis SC4 24.
Proof.
  assert (H1 : length fourLines = stringCountNum (stringCount (mkConfig SC4 24 true)))
    by reflexivity.
  assert (H2 : pickHit fourLines frets24 (frets (mkConfig SC4 24 true))
                       (mkPoint 1045 50) = Some (mkTarget 3 12)) by reflexivity.
  split; [exact H1|]. split; [exact H2|].
  exact (pickHit_pitch_is_targetable (mkConfig SC4 24 true) fourLines frets24
           (mkPoint 1045 50) (mkTarget 3 12) H1 H2).
Defined.

(** X15: every targetable note can be answered: it is the pitch of some
    cell of the board, and pressing that cell outside the debounce window
    while the note is the target is judged [Correct]. *)
Theorem every_target_has_a_cell (c : Config) (nowTs : Q) (s : Session) (m : Z) :
  m ∈ possibleMidis (stringCount c) (frets c) ->
  currentMidi s = Some m ->
  (60 <= nowTs - lastHitTs s)%Q ->
  exists hit,
    stringIndex hit < stringCountNum (stringCount c)
    /\ fret hit <= frets c
    /\ snd (onHit c nowTs hit s) = Some Correct.
Proof.
  intros Hm Hcur Hacc. apply possibleMidis_elem in Hm.
  destruct Hm as (hit & Hs & Hf & Hmidi). exists hit.
  split; [exact Hs|]. split; [exact Hf|].
  rewrite onHit_accepted_outcome by exact Hacc. rewrite Hcur, Hmidi.
  simpl. rewrite Z.eqb_refl. reflexivity.
Qed.

Lemma every_target_has_a_cell_witness :
  40%Z ∈ possibleMidis SC4 21
  /\ exists hit, snd (onHit fourStrings 100 hit (asking 40)) = Some Correct.
Proof.
  assert (H1 : 40%Z ∈ possibleMidis (stringCount fourStrings) (frets fourStrings)).
  { apply possibleMidis_elem. exists (mkTarget 1 7). simpl.
    split; [lia|]. split; [lia|reflexivity]. }
  split; [exact H1|].
  destruct (every_target_has_a_cell fourStrings 100 (asking 40) 40 H1 eq_refl
              ltac:(vm_compute; discriminate)) as (hit & _ & _ & H).
  exists hit. exact H.
Defined.

(** X16: a [Correct] press followed by an animation frame moves on: from
    a session with the guard down and nothing queued, the frame after the
    press performs exactly the advance [nextTarget] would make, lowers
    the guard and empties the queue, so the next [Correct] press can
    schedule again. *)
Theorem correct_press_then_frame (random : nat -> Q) (c : Config) (nowTs : Q)
    (hit : Target) (s : Session) (cur : Z) :
  (60 <= nowTs - lastHitTs s)%Q ->
  currentMidi s = Some cur ->
  hitMidi (stringCount c) hit = Some cur ->
  pendingNext s = false -> rafQueue s = 0 ->
  let s1 := fst (onHit c nowTs hit s) in
  let s2 := animationFrame random c s1 in
  rafQueue s1 = 1 /\ pendingNext s1 = true /\ currentMidi s1 = Some cur
  /\ currentMidi s2 = currentMidi (nextTarget random c s)
  /\ deck s2 = deck (nextTarget random c s)
  /\ pendingNext s2 = false /\ rafQueue s2 = 0.
Proof.
  intros Hacc Hcur Hmidi Hp Hq. apply Qlt_bool_false in Hacc.
  unfold onHit. rewrite Hacc, Hcur, Hmidi. cbn [sameMidi]. rewrite Z.eqb_refl, Hp, Hq.
  cbn [fst]. unfold animationFrame. cbn [rafQueue].
  change (Nat.iter 1 ?f ?x) with (f x).
  unfold rafCallback, nextTarget. cbn [deck draws].
  destruct (deck s) as [|x d]; [destruct (shuffle _ _ _)|]; repeat split; reflexivity.
Qed.

Lemma correct_press_then_frame_witness :
  (60 <= 100 - lastHitTs (asking 40))%Q
  /\ rafQueue (animationFrame halves fourStrings
                 (fst (onHit fourStrings 100 (mkTarget 1 7) (asking 40)))) = 0.
Proof.
  assert (H : (60 <= 100 - lastHitTs (asking 40))%Q) by (vm_compute; discriminate).
  split; [exact H|].
  exact (proj2 (proj2 (proj2 (proj2 (proj2 (proj2
           (correct_press_then_frame halves fourStrings 100 (mkTarget 1 7)
              (asking 40) 40 H eq_refl eq_refl eq_refl eq_refl))))))).
Defined.





(** ** The banner names the pitch *)

Lemma showInt_inj (a b : Z) : showInt a = showInt b -> a = b.
Proof.
  unfold showInt. intros H. apply DecimalZ.to_int_inj.
  assert (Hnil : forall z, Z.to_int z <> Decimal.Pos Decimal.Nil
                           /\ Z.to_int z <> Decimal.Neg Decimal.Nil).
  { intros [|p|p]; simpl; split; try discriminate;
      intros [= E]; exact (Unsigned.to_uint_nonnil p E). }
  pose proof (NilZero.isi (Z.to_int a) (proj1 (Hnil a)) (proj2 (Hnil a))) as Ha.
  pose proof (NilZero.isi (Z.to_int b) (proj1 (Hnil b)) (proj2 (Hnil b))) as Hb.
  rewrite H in Ha. congruence.
Qed.

Lemma showInt_not_sharp (z : Z) (rest : string) :
  showInt z <> String "#"%char rest.
Proof.
  unfold showInt. destruct (Z.to_int z) as [d|d]; [|discriminate].
  destruct d; discriminate.
Qed.

(** X18: the banner text determines the pitch: two pitches [>= 0] with
    the same [midiToNameOctave] are the same pitch, so different targets
    never show the same label. *)
Theorem midiToNameOctave_injective (m1 m2 : Z) :
  (0 <= m1)%Z -> (0 <= m2)%Z ->
  midiToNameOctave m1 = midiToNameOctave m2 -> m1 = m2.
Proof.
  intros H1 H2 H.
  destruct (residue_cases m1 H1) as [Hrem1 Hc1].
  destruct (residue_cases m2 H2) as [Hrem2 Hc2].
  unfold midiToNameOctave in H. rewrite !floor_midi_div, Hrem1, Hrem2 in H.
  pose proof (Z.div_mod m1 12 ltac:(lia)) as Hd1.
  pose proof (Z.div_mod m2 12 ltac:(lia)) as Hd2.
  remember (showInt (m1 / 12 - 1)) as s1 eqn:E1.
  remember (showInt (m2 / 12 - 1)) as s2 eqn:E2.
  assert (Hsame : s1 = s2 -> (m1 / 12 = m2 / 12)%Z).
  { intros ->. rewrite E1 in E2. apply showInt_inj in E2. lia. }
  assert (Hno1 : forall rest, s1 <> String "#"%char rest)
    by (intros rest; rewrite E1; apply showInt_not_sharp).
  assert (Hno2 : forall rest, s2 <> String "#"%char rest)
    by (intros rest; rewrite E2; apply showInt_not_sharp).
  clear E1 E2 Hrem1 Hrem2.
  repeat (destruct Hc1 as [Hc1|Hc1]);
    repeat (destruct Hc2 as [Hc2|Hc2]);
    rewrite Hc1, Hc2 in H; simpl in H;
    first
      [ discriminate H
      | injection H as H;
        first
          [ specialize (Hsame H); lia
          | exfalso; exact (Hno1 _ H)
          | exfalso; symmetry in H; exact (Hno2 _ H)
          | injection H as H; specialize (Hsame H); lia ] ].
Qed.

Lemma midiToNameOctave_injective_witness :
  (0 <= 40)%Z /\ (0 <= 52)%Z
  /\ midiToNameOctave 40 <> midiToNameOctave 52.
Proof.
  split; [lia|]. split; [lia|]. intros H.
  pose proof (midiToNameOctave_injective 40 52 ltac:(lia) ltac:(lia) H) as E.
  discriminate E.
Defined.

(** ** Edge cases of the shuffle and of the hit test *)

Lemma swap_length (a : list Z) (i j : nat) : length (swap a i j) = length a.
Proof.
  unfold swap. destruct (a !! i), (a !! j); try reflexivity.
  rewrite !length_insert. reflexivity.
Qed.

Lemma shuffleFrom_counts (random : nat -> Q) (i : nat) :
  forall a k,
    snd (shuffleFrom random i a k) = k + i
    /\ length (fst (shuffleFrom random i a k)) = length a.
Proof.
  induction i as [|i IH]; intros a k; simpl; [split; [lia|reflexivity]|].
  destruct (IH (swap a (S i) (randomIndex (random k) (S i))) (S k)) as [H1 H2].
  rewrite H1, H2, swap_length. split; [lia|reflexivity].
Qed.

(** X19: [shuffle] keeps the length of the array and calls [Math.random]
    exactly [length - 1] times; an empty or one-element array is returned
    as it is, without a call. *)
Theorem shuffle_counts (random : nat -> Q) (arr : list Z) (k : nat) :
  snd (shuffle random arr k) = k + (length arr - 1)
  /\ length (fst (shuffle random arr k)) = length arr
  /\ (length arr <= 1 -> shuffle random arr k = (arr, k)).
Proof.
  unfold shuffle.
  destruct (shuffleFrom_counts random (length arr - 1) arr k) as [H1 H2].
  split; [exact H1|]. split; [exact H2|].
  intros Hle. replace (length arr - 1) with 0 by lia. reflexivity.
Qed.

(** X20: when [fretXs] has no boundary for fret 1 (as with a fret count
    of 0), the open zone is taken to end at x = 43 (the nut width, the
    open pad and a quarter of the fallback width 60), and no fret can be
    hit beyond it, whatever the fret count. *)
Theorem pickHit_without_first_fret (ys xs : list Q) (frets : nat) (sp : DOMPoint) :
  xs !! 1 = None ->
  ((px sp <= 43)%Q ->
   pickHit ys xs frets sp = Some (mkTarget (nearestString ys (py sp)) 0))
  /\ ((43 < px sp)%Q -> pickHit ys xs frets sp = None).
Proof.
  intros Hx1.
  assert (Hedge : (openEdge xs == 43)%Q).
  { unfold openEdge, openGrace, firstFretX. rewrite Hx1. vm_compute. reflexivity. }
  split.
  - intros Hle. unfold pickHit.
    assert (E : Qle_bool (px sp) (openEdge xs) = true) by (apply Qle_bool_iff; lra).
    rewrite E. reflexivity.
  - intros Hgt. rewrite pickHit_beyond by lra.
    assert (Hs : scanFrets xs (px sp) 1 frets = None); [|rewrite Hs; reflexivity].
    apply scanFrets_None. intros n Hn. unfold inFret, fretRegion.
    assert (Hnone : xs !! n = None).
    { apply lookup_ge_None. apply lookup_ge_None in Hx1. lia. }
    rewrite Hnone. destruct (xs !! (n - 1)); reflexivity.
Qed.

Lemma pickHit_without_first_fret_witness :
  fretXs pow2Sample 0 = None
  /\ ([] : list Q) !! 1 = None
  /\ pickHit fourLines [] 0 (mkPoint 43 30) = Some (mkTarget 3 0)
  /\ pickHit fourLines [] 0 (mkPoint 44 30) = None.
Proof.
  assert (H : ([] : list Q) !! 1 = None) by reflexivity.
  split; [reflexivity|]. split; [exact H|].
  destruct (pickHit_without_first_fret fourLines [] 0 (mkPoint 43 30) H) as [H1 _].
  destruct (pickHit_without_first_fret fourLines [] 0 (mkPoint 44 30) H) as [_ H2].
  split; [apply H1; vm_compute; discriminate|apply H2; reflexivity].
Defined.
